(** * microservices-crawler: the directory scanner and its content hash

    A shallow embedding of [src/services/scanner/fileScanner.ts] and
    [src/utils/hash.ts], with the Node.js library calls they rely on
    ([path], [fs], [crypto]) modelled on POSIX semantics. *)

From Stdlib Require Import ZArith String Ascii Bool Lia Arith List FinFun.
From Stdlib Require Import Strings.Byte.
From Equations Require Import Equations.
Import ListNotations.

Local Open Scope string_scope.
Local Open Scope list_scope.
Local Open Scope Z_scope.

(** ** Bytes and 32-bit words *)

Definition byte_to_Z (b : byte) : Z := Z.of_N (Byte.to_N b).

Definition Z_to_byte (z : Z) : byte :=
  match Byte.of_N (Z.to_N (z mod 256)) with
  | Some b => b
  | None => x00
  end.

Module Sha256.

(** The 256-bit secure hash that [createHash('sha256')] selects, on 32-bit
    words kept in [Z] with the wrap-around written out. *)

Definition wrap (x : Z) : Z := x mod 2 ^ 32.
Definition add32 (a b : Z) : Z := wrap (a + b).
Definition rotr (n x : Z) : Z := wrap (Z.lor (Z.shiftr x n) (Z.shiftl x (32 - n))).
Definition shr (n x : Z) : Z := Z.shiftr x n.
Definition not32 (x : Z) : Z := Z.lxor x (2 ^ 32 - 1).

Definition Ch (x y z : Z) : Z := Z.lxor (Z.land x y) (Z.land (not32 x) z).
Definition Maj (x y z : Z) : Z :=
  Z.lxor (Z.lxor (Z.land x y) (Z.land x z)) (Z.land y z).
Definition bsig0 (x : Z) : Z := Z.lxor (Z.lxor (rotr 2 x) (rotr 13 x)) (rotr 22 x).
Definition bsig1 (x : Z) : Z := Z.lxor (Z.lxor (rotr 6 x) (rotr 11 x)) (rotr 25 x).
Definition ssig0 (x : Z) : Z := Z.lxor (Z.lxor (rotr 7 x) (rotr 18 x)) (shr 3 x).
Definition ssig1 (x : Z) : Z := Z.lxor (Z.lxor (rotr 17 x) (rotr 19 x)) (shr 10 x).

(** The round constants and the initial chaining value are the first 32
    bits of the fractional parts of the cube roots of the first 64 primes,
    and of the square roots of the first 8. *)
Definition is_prime (p : Z) : bool :=
  forallb (fun d => negb (p mod Z.of_nat d =? 0)) (seq 2 (Z.to_nat p - 2)).

Definition primes : list Z :=
  Eval vm_compute in filter is_prime (map Z.of_nat (seq 2 310)).

(** The largest [r + k] with [(r + k) ^ 3 <= n], for [k] below
    [2 ^ bits]. *)
Fixpoint cube_root (bits : nat) (n r : Z) : Z :=
  match bits with
  | O => r
  | S b =>
      let r' := r + 2 ^ Z.of_nat b in
      cube_root b n (if r' * r' * r' <=? n then r' else r)
  end.

Definition K : list Z :=
  Eval vm_compute in map (fun p => wrap (cube_root 40 (p * 2 ^ 96) 0)) primes.

Definition H0 : list Z :=
  Eval vm_compute in map (fun p => wrap (Z.sqrt (p * 2 ^ 64))) (firstn 8 primes).

(** Big-endian words of a block. *)
Fixpoint words (bs : list byte) : list Z :=
  match bs with
  | b0 :: b1 :: b2 :: b3 :: rest =>
      (Z.shiftl (byte_to_Z b0) 24 + Z.shiftl (byte_to_Z b1) 16
       + Z.shiftl (byte_to_Z b2) 8 + byte_to_Z b3) :: words rest
  | _ => []
  end.

(** Message schedule: [w] holds the words computed so far, newest first. *)
Fixpoint schedule (n : nat) (w : list Z) : list Z :=
  match n with
  | O => w
  | S n' =>
      let wt := add32 (add32 (ssig1 (nth 1 w 0)) (nth 6 w 0))
                      (add32 (ssig0 (nth 14 w 0)) (nth 15 w 0)) in
      schedule n' (wt :: w)
  end.

Definition round (st : list Z) (kw : Z * Z) : list Z :=
  match st with
  | [a; b; c; d; e; f; g; h] =>
      let t1 := add32 (add32 (add32 h (bsig1 e)) (add32 (Ch e f g) (fst kw))) (snd kw) in
      let t2 := add32 (bsig0 a) (Maj a b c) in
      [add32 t1 t2; a; b; c; add32 d t1; e; f; g]
  | _ => st
  end.

Fixpoint add_state (h st : list Z) : list Z :=
  match h, st with
  | x :: h', y :: st' => add32 x y :: add_state h' st'
  | _, _ => []
  end.

(** One application of the compression function to a 64-byte block. *)
Definition compress (h : list Z) (block : list byte) : list Z :=
  let w := rev (schedule 48 (rev (words block))) in
  add_state h (fold_left round (combine K w) h).

(** Consume every whole 64-byte block at the front of [data]; what is left
    over (fewer than 64 bytes) is returned with the chaining value. *)
Equations? absorb (h : list Z) (data : list byte) : list Z * list byte
  by wf (length data) lt :=
  absorb h data with le_lt_dec 64 (length data) => {
    | left _ := absorb (compress h (firstn 64 data)) (skipn 64 data);
    | right _ := (h, data) }.
Proof.
  change (length (skipn 64 data) < length data)%nat.
  rewrite length_skipn. lia.
Qed.

(** Big-endian encoding of [z] on [n] bytes. *)
Fixpoint be_bytes (n : nat) (z : Z) : list byte :=
  match n with
  | O => []
  | S n' => Z_to_byte (Z.shiftr z (8 * Z.of_nat n')) :: be_bytes n' z
  end.

(** The padding appended to a message of [len] bytes: the byte 0x80, zero
    bytes up to 56 modulo 64, and the bit length on 64 bits. *)
Definition padding (len : nat) : list byte :=
  let r := (len mod 64)%nat in
  let zeros := (if r <? 56 then 55 - r else 119 - r)%nat in
  x80 :: repeat x00 zeros ++ be_bytes 8 (8 * Z.of_nat len).

Definition hex_digit (d : Z) : ascii :=
  if d <? 10 then ascii_of_nat (Z.to_nat (48 + d))
  else ascii_of_nat (Z.to_nat (87 + d)).

Definition hex_byte (b : byte) : string :=
  let z := byte_to_Z b in
  String (hex_digit (z / 16)) (String (hex_digit (z mod 16)) EmptyString).

Definition hex (bs : list byte) : string :=
  fold_right (fun b acc => hex_byte b ++ acc)%string EmptyString bs.

Definition state_bytes (h : list Z) : list byte := flat_map (be_bytes 4) h.

(** The whole 64-byte blocks of a message, in order. *)
Equations? blocks (data : list byte) : list (list byte)
  by wf (length data) lt :=
  blocks data with le_lt_dec 64 (length data) => {
    | left _ := firstn 64 data :: blocks (skipn 64 data);
    | right _ := [] }.
Proof.
  change (length (skipn 64 data) < length data)%nat.
  rewrite length_skipn. lia.
Qed.

(** The digest of a whole message, as the standard defines it: the padded
    message is cut in blocks and the compression function is iterated over
    them from the initial chaining value. *)
Definition sha256 (msg : list byte) : list byte :=
  state_bytes (fold_left compress (blocks (msg ++ padding (length msg))) H0).

Definition sha256_hex (msg : list byte) : string := hex (sha256 msg).

(** *** The incremental interface: [createHash], [update], [digest] *)

Record Hash := mkHash {
  chain : list Z;          (* chaining value *)
  pending : list byte;     (* input not yet compressed, fewer than 64 bytes *)
  total : nat              (* bytes fed so far *)
}.

Definition createHash : Hash := mkHash H0 [] 0.

Definition update (hs : Hash) (chunk : list byte) : Hash :=
  let '(h, rest) := absorb (chain hs) (pending hs ++ chunk) in
  mkHash h rest (total hs + length chunk).

Definition digest_hex (hs : Hash) : string :=
  hex (state_bytes (fst (absorb (chain hs) (pending hs ++ padding (total hs))))).

(** The state of a hash object that has been fed [msg]. *)
Definition fed (msg : list byte) (hs : Hash) : Prop :=
  absorb H0 msg = (chain hs, pending hs) /\ total hs = length msg.

End Sha256.


(** ** Strings: [String.prototype.toLowerCase] and [path.extname] *)

(** Names are modelled on 8-bit characters; only the letters A to Z change
    case. *)
Definition lower_char (c : ascii) : ascii :=
  let n := nat_of_ascii c in
  if ((65 <=? n) && (n <=? 90))%nat then ascii_of_nat (n + 32) else c.

Fixpoint toLowerCase (s : string) : string :=
  match s with
  | EmptyString => EmptyString
  | String c s' => String (lower_char c) (toLowerCase s')
  end.

Module Extname.

(** The loop of Node's POSIX [extname], variable for variable.  It walks
    the characters from the last one to the first. *)
Record vars := mkVars {
  startDot : Z;
  startPart : Z;
  endPos : Z;
  matchedSlash : bool;
  preDotState : Z
}.

Definition init : vars := mkVars (-1) 0 (-1) true 0.

(** One iteration on the character [c] at index [i]; the boolean tells
    whether the loop breaks. *)
Definition body (v : vars) (i : Z) (c : ascii) : vars * bool :=
  if Ascii.eqb c "/" then
    if negb (matchedSlash v)
    then (mkVars (startDot v) (i + 1) (endPos v) (matchedSlash v) (preDotState v), true)
    else (v, false)
  else
    let v1 :=
      if endPos v =? -1
      then mkVars (startDot v) (startPart v) (i + 1) false (preDotState v)
      else v in
    if Ascii.eqb c "."
    then
      if startDot v1 =? -1
      then (mkVars i (startPart v1) (endPos v1) (matchedSlash v1) (preDotState v1), false)
      else if negb (preDotState v1 =? 1)
      then (mkVars (startDot v1) (startPart v1) (endPos v1) (matchedSlash v1) 1, false)
      else (v1, false)
    else
      if negb (startDot v1 =? -1)
      then (mkVars (startDot v1) (startPart v1) (endPos v1) (matchedSlash v1) (-1), false)
      else (v1, false).

(** [rev_chars] lists the characters from index [i] downwards. *)
Fixpoint loop (rev_chars : list ascii) (i : Z) (v : vars) : vars :=
  match rev_chars with
  | [] => v
  | c :: rest =>
      let '(v', stop) := body v i c in
      if stop then v' else loop rest (i - 1) v'
  end.

Definition extname (path : string) : string :=
  let chars := list_ascii_of_string path in
  let v := loop (rev chars) (Z.of_nat (List.length chars) - 1) init in
  if (startDot v =? -1) || (endPos v =? -1) || (preDotState v =? 0)
     || ((preDotState v =? 1) && (startDot v =? endPos v - 1)
         && (startDot v =? startPart v + 1))
  then ""
  else substring (Z.to_nat (startDot v)) (Z.to_nat (endPos v - startDot v)) path.

End Extname.

(** ** Paths

    A path is kept in parsed form: whether it starts at the filesystem
    root, and its segments in order.  [path.normalize], [path.join],
    [path.resolve] and [path.relative] are modelled on that form. *)

Record path := mkPath {
  absolute : bool;
  segs : list string
}.

Definition is_dots (s : string) : bool := String.eqb s "..".
Definition is_blank (s : string) : bool := String.eqb s "" || String.eqb s ".".

(** One segment pushed on a stack kept newest first: a path that starts
    at the root cannot climb above it. *)
Definition step_abs (st : list string) (s : string) : list string :=
  if is_blank s then st
  else if is_dots s then tl st
  else s :: st.

(** The same for a relative path, which keeps the [..] it cannot resolve. *)
Definition step_rel (st : list string) (s : string) : list string :=
  if is_blank s then st
  else if is_dots s then
    match st with
    | [] => [s]
    | t :: st' => if is_dots t then s :: st else st'
    end
  else s :: st.

Definition normalize_abs (l : list string) : list string :=
  rev (fold_left step_abs l []).

Definition normalize_rel (l : list string) : list string :=
  rev (fold_left step_rel l []).

Definition normalize (p : path) : path :=
  if absolute p then mkPath true (normalize_abs (segs p))
  else mkPath false (normalize_rel (segs p)).

(** [path.join(dir, name)] *)
Definition path_join (dir : path) (name : string) : path :=
  normalize (mkPath (absolute dir) (segs dir ++ [name])).

(** [path.resolve(p)], against the working directory [cwd]. *)
Definition path_resolve (cwd : list string) (p : path) : path :=
  if absolute p then mkPath true (normalize_abs (segs p))
  else mkPath true (normalize_abs (cwd ++ segs p)).

Fixpoint strip_common (a b : list string) : list string * list string :=
  match a, b with
  | x :: a', y :: b' => if String.eqb x y then strip_common a' b' else (a, b)
  | _, _ => (a, b)
  end.

(** [path.relative(from, to)] *)
Definition path_relative (cwd : list string) (from to : path) : path :=
  let '(up, down) :=
    strip_common (segs (path_resolve cwd from)) (segs (path_resolve cwd to)) in
  mkPath false (repeat ".." (List.length up) ++ down).

(** ** The filesystem *)

Inductive errno := ENOENT | EACCES | ENOTDIR | EISDIR | EIO | EMFILE.

Record file := mkFile {
  content : list byte;
  birthtime : Z;
  mtime : Z;
  stat_fault : option errno;          (* [fs.stat] fails with this error *)
  read_fault : option (nat * errno)   (* the read after that many chunks fails *)
}.

(** What a path names.  A directory whose listing fails carries the
    error; entries are in the order [readdir] reports them. *)
#[warnings="-register-all"]
Inductive node :=
| NFile (f : file)
| NDir (fault : option errno) (entries : list (string * node))
| NOther.

Definition isDirectory (n : node) : bool :=
  match n with NDir _ _ => true | _ => false end.

Definition isFile (n : node) : bool :=
  match n with NFile _ => true | _ => false end.

Definition file_of (n : node) : option file :=
  match n with NFile f => Some f | _ => None end.

Record Stats := mkStats {
  st_size : Z;
  st_birthtime : Z;
  st_mtime : Z
}.

(** [fs.stat] *)
Definition fs_stat (f : file) : errno + Stats :=
  match stat_fault f with
  | Some e => inl e
  | None => inr (mkStats (Z.of_nat (List.length (content f))) (birthtime f) (mtime f))
  end.

(** [fs.readdir(p, { withFileTypes: true })], [target] being what [p] names. *)
Definition fs_readdir (target : option node) : errno + list (string * node) :=
  match target with
  | None => inl ENOENT
  | Some (NDir (Some e) _) => inl e
  | Some (NDir None entries) => inr entries
  | Some _ => inl ENOTDIR
  end.

(** *** Read streams *)

(** What a read stream emits: ['data'] events closed by ['end'] or
    ['error']. *)
Inductive stream :=
| OnData (chunk : list byte) (rest : stream)
| OnError (e : errno)
| OnEnd.

(** The content cut in reads of at most [S n] bytes. *)
Equations? chunks (n : nat) (data : list byte) : list (list byte)
  by wf (length data) lt :=
  chunks n [] := [];
  chunks n (b :: data) := firstn (S n) (b :: data) :: chunks n (skipn n data).
Proof. rewrite length_skipn. lia. Qed.

Definition next_read (fault : option (nat * errno)) : option (nat * errno) :=
  match fault with
  | Some (S k, e) => Some (k, e)
  | other => other
  end.

Fixpoint emit (cs : list (list byte)) (fault : option (nat * errno)) : stream :=
  match fault with
  | Some (O, e) => OnError e
  | _ =>
      match cs with
      | [] => OnEnd
      | c :: cs' => OnData c (emit cs' (next_read fault))
      end
  end.

(** [createReadStream(filePath, { highWaterMark })] *)
Definition createReadStream (f : file) (highWaterMark : Z) : stream :=
  emit (chunks (Z.to_nat highWaterMark - 1) (content f)) (read_fault f).

(** The chunks a stream hands to its ['data'] listener, and whether it
    closes with ['end']. *)
Fixpoint delivered (s : stream) : list (list byte) :=
  match s with
  | OnData chunk rest => chunk :: delivered rest
  | _ => []
  end.

Fixpoint ends_well (s : stream) : bool :=
  match s with
  | OnData _ rest => ends_well rest
  | OnError _ => false
  | OnEnd => true
  end.

(** ** [src/utils/hash.ts] *)

Definition highWaterMark : Z := 64 * 1024.

(** The three handlers of [calculateFileHash] run over the stream's
    events: ['data'] updates the hash, ['error'] rejects, ['end'] resolves
    with the hexadecimal digest.  The run comes with the largest number
    of bytes of file content it holds at a time: while a chunk is
    handled, the chunk and what the hash object retains of the earlier
    ones; otherwise what the hash object retains. *)
Fixpoint run_handlers (s : stream) (hash : Sha256.Hash) : (errno + string) * nat :=
  match s with
  | OnData chunk rest =>
      let '(settled, held) := run_handlers rest (Sha256.update hash chunk) in
      (settled, Nat.max (length chunk + length (Sha256.pending hash)) held)
  | OnError e => (inl e, length (Sha256.pending hash))
  | OnEnd => (inr (Sha256.digest_hex hash), length (Sha256.pending hash))
  end.

(** What the promise settles with. *)
Definition on_events (s : stream) (hash : Sha256.Hash) : errno + string :=
  fst (run_handlers s hash).

(** One call of [calculateFileHash]: a read stream on the file with
    [highWaterMark] bytes per read, a fresh hash object, and the
    handlers. *)
Definition hash_file (f : file) : (errno + string) * nat :=
  run_handlers (createReadStream f highWaterMark) Sha256.createHash.

Definition calculateFileHash (f : file) : errno + string := fst (hash_file f).

(** ** [src/models/types.ts] *)

Record ImageMetadata := mkImageMetadata {
  im_path : path;
  absolutePath : path;
  size : Z;
  dimensions : option (Z * Z);
  hash : string;
  created : Z;
  modified : Z
}.

(** ** [src/services/scanner/fileScanner.ts] *)

Record ScanOptions := mkScanOptions {
  recursive : bool;
  includeZips : bool;
  fileTypes : list string;
  maxSize : option Z
}.

(** [Partial<ScanOptions>]: [None] is an omitted property. *)
Record PartialScanOptions := mkPartial {
  opt_recursive : option bool;
  opt_includeZips : option bool;
  opt_fileTypes : option (list string);
  opt_maxSize : option Z
}.

Definition no_options : PartialScanOptions := mkPartial None None None None.

Definition defaultOptions : ScanOptions :=
  mkScanOptions true true
    [".jpg"; ".jpeg"; ".png"; ".gif"; ".webp"; ".bmp"; ".tiff"] None.

Definition override {A} (given : option A) (default : A) : A :=
  match given with Some a => a | None => default end.

(** [{ ...defaults, ...options }] *)
Definition spread (defaults : ScanOptions) (options : PartialScanOptions) : ScanOptions :=
  mkScanOptions
    (override (opt_recursive options) (recursive defaults))
    (override (opt_includeZips options) (includeZips defaults))
    (override (opt_fileTypes options) (fileTypes defaults))
    (match opt_maxSize options with Some m => Some m | None => maxSize defaults end).

(** What the scanner does to the outside world, in order. *)
Inductive diagnostic :=
| ProcessingFile (fullPath : path) (e : errno)
| ScanningDirectory (rootPath : path) (e : errno).

Inductive io_event :=
| Readdir (p : path)
| Stat (p : path)
| ReadStream (p : path)
| ConsoleError (d : diagnostic).

(** The [results] array shared by the whole walk, and the trace. *)
Record heap := mkHeap {
  results : list ImageMetadata;
  trace : list io_event
}.

Definition M (A : Type) : Type := heap -> (errno + A) * heap.

Definition ret {A} (a : A) : M A := fun h => (inr a, h).

Definition bind {A B} (m : M A) (k : A -> M B) : M B :=
  fun h =>
    match m h with
    | (inl e, h') => (inl e, h')
    | (inr a, h') => k a h'
    end.

Definition throw {A} (e : errno) : M A := fun h => (inl e, h).

Definition try_catch {A} (m : M A) (handler : errno -> M A) : M A :=
  fun h =>
    match m h with
    | (inl e, h') => handler e h'
    | (inr a, h') => (inr a, h')
    end.

Definition emit_io (ev : io_event) : M unit :=
  fun h => (inr tt, mkHeap (results h) (trace h ++ [ev])).

Definition push (m : ImageMetadata) : M unit :=
  fun h => (inr tt, mkHeap (results h ++ [m]) (trace h)).

(** [return results] *)
Definition read_results : M (list ImageMetadata) :=
  fun h => (inr (results h), h).

(** An awaited call that may reject. *)
Definition await {A} (r : errno + A) : M A :=
  match r with inl e => throw e | inr a => ret a end.

Declare Scope scan_scope.
Delimit Scope scan_scope with scan.
Notation "x <- m ;; k" := (bind m (fun x => k))
  (at level 61, m at next level, right associativity) : scan_scope.
Notation "m ;; k" := (bind m (fun _ => k))
  (at level 61, right associativity) : scan_scope.
Local Open Scope scan_scope.

Definition isValidImageFile (fileName : string) (options : ScanOptions) : bool :=
  let ext := toLowerCase (Extname.extname fileName) in
  existsb (String.eqb ext) (fileTypes options).

Definition isValidSize (metadata : ImageMetadata) (maxSize : option Z) : bool :=
  match maxSize with
  | None => true
  | Some m => if m =? 0 then true else size metadata <=? m
  end.

Section Scanner.

(** The process's working directory and the scanner's [rootPath]. *)
Variable cwd : list string.
Variable rootPath : path.

Definition getImageMetadata (filePath : path) (f : file) : M ImageMetadata :=
  emit_io (Stat filePath) ;;
  stats <- await (fs_stat f) ;;
  emit_io (ReadStream filePath) ;;
  hash <- await (calculateFileHash f) ;;
  ret (mkImageMetadata
         (path_relative cwd rootPath filePath)
         (path_resolve cwd filePath)
         (st_size stats)
         None
         hash
         (st_birthtime stats)
         (st_mtime stats)).

Variable options : ScanOptions.

(** The body of the [try] block in the loop, with its [catch]. *)
Definition processFile (fullPath : path) (f : file) : M unit :=
  try_catch
    (metadata <- getImageMetadata fullPath f ;;
     if isValidSize metadata (maxSize options) then push metadata else ret tt)
    (fun error => emit_io (ConsoleError (ProcessingFile fullPath error))).

(** The [for (const entry of entries)] loop of [scanDirectory]; [recur]
    is the recursive call. *)
Definition forEntries (recur : path -> node -> M unit) (dirPath : path)
  : list (string * node) -> M unit :=
  fix each (es : list (string * node)) : M unit :=
    match es with
    | [] => ret tt
    | (name, entry) :: rest =>
        let fullPath := path_join dirPath name in
        if isDirectory entry && recursive options then
          recur fullPath entry ;; each rest
        else if isFile entry && isValidImageFile name options then
          match file_of entry with
          | Some f => processFile fullPath f ;; each rest
          | None => each rest
          end
        else each rest
    end.

(** [scanDirectory(dirPath, results, options)], [dir] being what
    [dirPath] names. *)
Fixpoint scanDirectory (dirPath : path) (dir : node) {struct dir} : M unit :=
  emit_io (Readdir dirPath) ;;
  match dir with
  | NDir None entries => forEntries scanDirectory dirPath entries
  | NDir (Some e) _ => throw e
  | NFile _ | NOther => throw ENOTDIR
  end.

End Scanner.

(** [scan(options)] on a scanner built with [new FileScanner(rootPath)];
    [root] is what [rootPath] names, if anything.  The result comes with
    the trace of the run. *)
Definition scan (cwd : list string) (rootPath : path) (root : option node)
    (options : PartialScanOptions) : (errno + list ImageMetadata) * list io_event :=
  let mergedOptions := spread defaultOptions options in
  let body : M (list ImageMetadata) :=
    try_catch
      (match root with
       | Some dir => scanDirectory cwd rootPath mergedOptions rootPath dir
       | None => emit_io (Readdir rootPath) ;; throw ENOENT
       end ;;
       read_results)
      (fun error =>
         emit_io (ConsoleError (ScanningDirectory rootPath error)) ;;
         throw error) in
  let '(r, h) := body (mkHeap [] []) in
  (r, trace h).

(** ** [src/api/index.ts] *)

(** The segments of a path written as a string, cut at every separator. *)
Fixpoint segments (s : string) : list string :=
  match s with
  | EmptyString => [EmptyString]
  | String c s' =>
      if Ascii.eqb c "/" then EmptyString :: segments s'
      else match segments s' with
           | [] => [String c EmptyString]
           | seg :: rest => String c seg :: rest
           end
  end.

Definition parse_path (s : string) : path :=
  mkPath (match s with String c _ => Ascii.eqb c "/" | EmptyString => false end)
         (segments s).

(** The body of a request to [/scan], as its interface declares it: a
    path that is a string and options of type [Partial<ScanOptions>];
    [None] is an absent property. *)
Record ScanRequest := mkScanRequest {
  req_path : option string;
  req_options : option PartialScanOptions
}.

(** [error.message] for an error of the filesystem, or a literal text. *)
Inductive message :=
| Text (s : string)
| MessageOf (e : errno).

Record ScanResult := mkScanResult {
  sr_id : string;
  sr_timestamp : Z;
  totalFiles : Z;
  images : list ImageMetadata
}.

Record ErrorResponse := mkErrorResponse {
  er_code : string;
  er_message : message;
  er_details : option (string * PartialScanOptions)
}.

Inductive payload :=
| Result (r : ScanResult)
| Failure (e : ErrorResponse)
| Valid (resolved : path)
| Invalid (given : string) (reason : message).

Record response := mkResponse {
  status : Z;
  body : payload
}.

(** What a handler finds around it: the working directory, what each
    absolute path names, and the values [uuidv4()] and [new Date()] give
    for this request. *)
Record env := mkEnv {
  env_cwd : list string;
  env_fs : path -> option node;
  env_uuid : string;
  env_now : Z
}.

(** [!scanPath] *)
Definition falsy (p : option string) : bool :=
  match p with
  | None => true
  | Some s => String.eqb s ""
  end.

Definition path_required : response :=
  mkResponse 400 (Failure (mkErrorResponse "INVALID_REQUEST" (Text "Path is required") None)).

(** The handler of [POST /scan], with the trace of the scan it runs. *)
Definition post_scan (w : env) (req : ScanRequest) : response * list io_event :=
  let options := override (req_options req) no_options in
  match req_path req with
  | None => (path_required, [])
  | Some scanPath =>
      if falsy (Some scanPath) then (path_required, [])
      else
        let resolved := path_resolve (env_cwd w) (parse_path scanPath) in
        match scan (env_cwd w) resolved (env_fs w resolved) options with
        | (inr found_images, t) =>
            (mkResponse 200
               (Result (mkScanResult (env_uuid w) (env_now w)
                          (Z.of_nat (length found_images)) found_images)), t)
        | (inl error, t) =>
            (mkResponse 500
               (Failure (mkErrorResponse "SCAN_ERROR" (MessageOf error)
                           (Some (scanPath, options)))), t)
        end
  end.

(** [fs.access(p)]: the path names something. *)
Definition fs_access (target : option node) : errno + unit :=
  match target with
  | Some _ => inr tt
  | None => inl ENOENT
  end.

(** The handler of [POST /validate]. *)
Definition post_validate (w : env) (testPath : option string) : response :=
  match testPath with
  | None => path_required
  | Some given =>
      if falsy (Some given) then path_required
      else
        let resolved := path_resolve (env_cwd w) (parse_path given) in
        match fs_access (env_fs w resolved) with
        | inr _ => mkResponse 200 (Valid resolved)
        | inl error => mkResponse 200 (Invalid given (MessageOf error))
        end
  end.

(** ** Vocabulary of the specification *)

Definition bytes_of_string (s : string) : list byte :=
  map (fun c => Z_to_byte (Z.of_nat (nat_of_ascii c))) (list_ascii_of_string s).

Definition has_slash (s : string) : bool :=
  existsb (Ascii.eqb "/") (list_ascii_of_string s).

(** Names [readdir] can report: never empty, [.] or [..], and without a
    separator, so that each is one segment of a path. *)
Definition valid_name (s : string) : bool :=
  negb (is_blank s) && negb (is_dots s) && negb (has_slash s).

(** A segment that [normalize] keeps as it is. *)
Definition solid (s : string) : Prop := is_blank s = false /\ is_dots s = false.

(** What the stack of a relative path may hold: anything but blanks. *)
Definition kept (s : string) : Prop := is_blank s = false.

Fixpoint distinct (names : list string) : bool :=
  match names with
  | [] => true
  | n :: rest => negb (existsb (String.eqb n) rest) && distinct rest
  end.

(** A tree as a filesystem can hold it: in every directory the names are
    valid and pairwise different. *)
Fixpoint well_formed (n : node) : bool :=
  match n with
  | NDir _ entries =>
      distinct (map fst entries)
      && forallb (fun e => valid_name (fst e) && well_formed (snd e)) entries
  | _ => true
  end.

(** A regular file of the tree: the directories leading to it from the
    top, its name, and the file. *)
Record found := mkFound {
  dirs : list string;
  fname : string;
  ffile : file
}.

Definition below (name : string) (x : found) : found :=
  mkFound (name :: dirs x) (fname x) (ffile x).

Definition depth (x : found) : nat := length (dirs x).

Definition location (x : found) : list string := dirs x ++ [fname x].

Section Tree.

Variable deep : bool.   (* whether subdirectories count *)

Definition entry_files (files : node -> list found) (e : string * node) : list found :=
  if isDirectory (snd e) && deep then map (below (fst e)) (files (snd e))
  else match file_of (snd e) with
       | Some f => [mkFound [] (fst e) f]
       | None => []
       end.

(** The regular files of a tree, in listing order, directories first
    entered where they stand. *)
Fixpoint files (n : node) : list found :=
  match n with
  | NDir _ entries => flat_map (entry_files files) entries
  | _ => []
  end.

(** Every directory the walk has to list can be listed. *)
Fixpoint listable (n : node) : bool :=
  match n with
  | NDir None entries =>
      forallb (fun e => if isDirectory (snd e) && deep then listable (snd e) else true)
              entries
  | _ => false
  end.

(** Listing some directory of the tree fails with [e]. *)
Inductive listing_fails : node -> errno -> Prop :=
| fails_file f : listing_fails (NFile f) ENOTDIR
| fails_other : listing_fails NOther ENOTDIR
| fails_here e entries : listing_fails (NDir (Some e) entries) e
| fails_below entries name sub e :
    deep = true -> In (name, sub) entries -> isDirectory sub = true ->
    listing_fails sub e -> listing_fails (NDir None entries) e.

(** The error of the first listing to fail, in the order of the walk. *)
Definition first_of (first_failure : node -> option errno)
    (entries : list (string * node)) : option errno :=
  fold_right
    (fun e later =>
       if isDirectory (snd e) && deep then
         match first_failure (snd e) with
         | Some err => Some err
         | None => later
         end
       else later)
    None entries.

Fixpoint first_failure (n : node) : option errno :=
  match n with
  | NDir None entries => first_of first_failure entries
  | NDir (Some e) _ => Some e
  | _ => Some ENOTDIR
  end.

(** Where a regular file sits in the tree, stated on its own: directly in
    this directory, or in a subdirectory when those count. *)
Inductive located : node -> found -> Prop :=
| located_here fault entries name f :
    In (name, NFile f) entries ->
    located (NDir fault entries) (mkFound [] name f)
| located_below fault entries name sub x :
    deep = true -> In (name, sub) entries -> isDirectory sub = true ->
    located sub x -> located (NDir fault entries) (below name x).

(** The same for the entries of a directory that was listed. *)
Definition entry_listable (e : string * node) : bool :=
  if isDirectory (snd e) && deep then listable (snd e) else true.

Definition entry_fails (entries : list (string * node)) (e : errno) : Prop :=
  exists name sub,
    deep = true /\ In (name, sub) entries /\ isDirectory sub = true
    /\ listing_fails sub e.

End Tree.

(** How a walk ends, given the first listing failure if any. *)
Definition outcome (failure : option errno) : errno + unit :=
  match failure with Some e => inl e | None => inr tt end.

Definition empty_heap : heap := mkHeap [] [].

Definition append (h : heap) (rs : list ImageMetadata) (t : list io_event) : heap :=
  mkHeap (results h ++ rs) (trace h ++ t).

(** [m] behaves the same from any heap: it only appends. *)
Definition framed {A} (m : M A) : Prop :=
  forall h,
    m h = (fst (m empty_heap),
           append h (results (snd (m empty_heap))) (trace (snd (m empty_heap)))).

Definition is_readdir (ev : io_event) : bool :=
  match ev with Readdir _ => true | _ => false end.

(** The trace without the directory listings. *)
Definition file_level (t : list io_event) : list io_event :=
  filter (fun ev => negb (is_readdir ev)) t.

Definition diagnostics (t : list io_event) : list diagnostic :=
  flat_map (fun ev => match ev with ConsoleError d => [d] | _ => [] end) t.

Section Visit.

Variable cwd : list string.
Variable rootPath : path.
Variable options : ScanOptions.

(** The path the walker builds for a file found under [dirPath]. *)
Definition full_path (dirPath : path) (x : found) : path :=
  path_join (fold_left path_join (dirs x) dirPath) (fname x).

(** What the loop does with one regular file. *)
Definition visit (dirPath : path) (x : found) : M unit :=
  if isValidImageFile (fname x) options
  then processFile cwd rootPath options (full_path dirPath x) (ffile x)
  else ret tt.

Definition visit_results (dirPath : path) (x : found) : list ImageMetadata :=
  results (snd (visit dirPath x (mkHeap [] []))).

Definition visit_trace (dirPath : path) (x : found) : list io_event :=
  trace (snd (visit dirPath x (mkHeap [] []))).

(** The walk from [dirPath] stopped with [r] after handling the files
    [done], leaving [rest] unvisited, and logged [t]. *)
Definition walked (all : list found) (failure : errno -> Prop) (success : Prop)
    (dirPath : path) (h : heap) (out : (errno + unit) * heap) : Prop :=
  exists r done rest t,
    out = (r, append h (flat_map (visit_results dirPath) done) t)
    /\ all = done ++ rest
    /\ file_level t = flat_map (visit_trace dirPath) done
    /\ match r with
       | inr _ => rest = [] /\ success
       | inl e => failure e
       end.

(** Metadata extraction, without the bookkeeping. *)
Definition extract (filePath : path) (f : file) : errno + ImageMetadata :=
  fst (getImageMetadata cwd rootPath filePath f (mkHeap [] [])).

End Visit.

Definition path_eq_dec (p q : path) : {p = q} + {p <> q}.
Proof.
  decide equality; [apply (list_eq_dec string_dec) | apply Bool.bool_dec].
Defined.

Definition path_eqb (p q : path) : bool :=
  if path_eq_dec p q then true else false.

Section Candidates.

Variable cwd : list string.
Variable rootPath : path.
Variable options : ScanOptions.

(** The files the walk considers: those it reaches that pass the type
    predicate. *)
Definition candidates (dir : node) : list found :=
  filter (fun x => isValidImageFile (fname x) options) (files (recursive options) dir).

(** Extraction fails on the candidate. *)
Definition unreadable (x : found) : bool :=
  match extract cwd rootPath (full_path rootPath x) (ffile x) with
  | inl _ => true
  | inr _ => false
  end.

(** Extraction succeeds and the size predicate accepts the record. *)
Definition accepted (x : found) : bool :=
  match extract cwd rootPath (full_path rootPath x) (ffile x) with
  | inl _ => false
  | inr m => isValidSize m (maxSize options)
  end.

End Candidates.

(** The size filter as the specification words it: the size of the file
    is at most [maxSize], when [maxSize] is set. *)
Definition within_bound (bound : option Z) (x : found) : bool :=
  match bound with
  | Some b => Z.of_nat (length (content (ffile x))) <=? b
  | None => true
  end.

(** Both steps of metadata extraction succeed on [f]. *)
Definition extractable (f : file) : bool :=
  match fs_stat f, calculateFileHash f with
  | inr _, inr _ => true
  | _, _ => false
  end.

(** The event is an access to the file at [p], or a diagnostic about it. *)
Definition touches (p : path) (ev : io_event) : bool :=
  match ev with
  | Stat q | ReadStream q | ConsoleError (ProcessingFile q _) => path_eqb p q
  | _ => false
  end.

(** The record sits directly in the scan root. *)
Definition top_level (m : ImageMetadata) : bool :=
  (length (segs (im_path m)) =? 1)%nat.

(** ** Sample trees *)

Definition plain (s : string) : file := mkFile (bytes_of_string s) 0 0 None None.

Definition sample_cwd : list string := ["home"; "app"].
Definition sample_root : path := mkPath true ["srv"; "images"].

(** The scenario of the specification: three files and a subdirectory. *)
Definition sample_tree : node :=
  NDir None
    [ ("a.jpg", NFile (plain "0123456789"));
      ("b.png", NFile (plain "01234567890123456789"));
      ("c.txt", NFile (plain "01234"));
      ("d", NDir None [("e.gif", NFile (plain "012345678901234"))]) ].

(** A picture that cannot be opened. *)
Definition locked : file := mkFile (bytes_of_string "0123456789") 0 0 None (Some (O, EACCES)).

(** A tree with a subdirectory that cannot be listed. *)
Definition guarded_tree : node :=
  NDir None
    [ ("a.jpg", NFile (plain "0123456789"));
      ("private", NDir (Some EACCES) []) ].

(** The sample tree scanned for GIF pictures only: one record. *)
Definition gif_options : PartialScanOptions := mkPartial None None (Some [".gif"]) None.

Definition gif_file : found := mkFound ["d"] "e.gif" (plain "012345678901234").

Definition gif_record : ImageMetadata :=
  mkImageMetadata (mkPath false ["d"; "e.gif"])
    (mkPath true ["srv"; "images"; "d"; "e.gif"]) 15 None
    "d245de8f862b8f166024c1c4e1a0ce41ec03c33dd9cd2d203487e8cef4b5a061" 0 0.

(** Two pictures that can be read and one that cannot, with a text file. *)
Definition mixed_tree : node :=
  NDir None
    [ ("a.jpg", NFile (plain "0123456789"));
      ("bad.png", NFile locked);
      ("notes.txt", NFile (plain "01234"));
      ("d", NDir None [("e.gif", NFile (plain "012345678901234"))]) ].

Definition locked_tree : node := NDir None [("a.jpg", NFile locked)].


(** The directory that the repository's test suite builds: empty
    pictures in the root and in two subdirectories, and a text file. *)
Definition test_tree : node :=
  NDir None
    [ ("subdir1", NDir None [("test3.gif", NFile (plain ""))]);
      ("subdir2", NDir None [("test4.jpg", NFile (plain ""))]);
      ("test1.jpg", NFile (plain ""));
      ("test2.png", NFile (plain ""));
      ("not-an-image.txt", NFile (plain "test")) ].

Definition basenames (r : errno + list ImageMetadata) : list string :=
  match r with
  | inr records => map (fun m => last (segs (im_path m)) "") records
  | inl _ => []
  end.

(** ** Further vocabulary *)

(** The paths handed to [fs.stat], to [createReadStream] and to
    [fs.readdir], in the order of the calls. *)
Definition stat_paths (t : list io_event) : list path :=
  flat_map (fun ev => match ev with Stat p => [p] | _ => [] end) t.

Definition read_paths (t : list io_event) : list path :=
  flat_map (fun ev => match ev with ReadStream p => [p] | _ => [] end) t.

Definition listed_paths (t : list io_event) : list path :=
  flat_map (fun ev => match ev with Readdir p => [p] | _ => [] end) t.

Definition stat_ok (x : found) : bool :=
  match fs_stat (ffile x) with inr _ => true | inl _ => false end.

(** What a record says of the file itself, wherever the root is. *)
Definition portable (m : ImageMetadata)
  : path * Z * option (Z * Z) * string * Z * Z :=
  (im_path m, size m, dimensions m, hash m, created m, modified m).

Definition has_char (c : ascii) (s : string) : bool :=
  existsb (Ascii.eqb c) (list_ascii_of_string s).

(** A name written in ASCII, where [toLowerCase] above is the case
    mapping of the language. *)
Definition is_ascii_name (s : string) : bool :=
  forallb (fun c => (nat_of_ascii c <? 128)%nat) (list_ascii_of_string s).

(** One of the letters [A] to [Z]. *)
Definition is_upper (c : ascii) : bool :=
  ((65 <=? nat_of_ascii c) && (nat_of_ascii c <=? 90))%nat.

Definition has_upper (s : string) : bool :=
  existsb is_upper (list_ascii_of_string s).

(** A character that is neither the separator nor the dot. *)
Definition plain_char (c : ascii) : Prop :=
  Ascii.eqb c "/" = false /\ Ascii.eqb c "." = false.

Definition is_lower_hex (c : ascii) : bool := has_char c "0123456789abcdef".

(** The error a stream closes with, if it does. *)
Fixpoint stream_error (s : stream) : option errno :=
  match s with
  | OnData _ rest => stream_error rest
  | OnError e => Some e
  | OnEnd => None
  end.

(** Extraction succeeds on the candidate and the size predicate rejects
    the record. *)
Definition oversized (cwd : list string) (rootPath : path) (options : ScanOptions)
    (x : found) : bool :=
  match extract cwd rootPath (full_path rootPath x) (ffile x) with
  | inl _ => false
  | inr m => negb (isValidSize m (maxSize options))
  end.

(** Options that set a bound of twelve bytes and nothing else. *)
Definition twelve_bytes : PartialScanOptions := mkPartial None None None (Some 12).

Definition records_of (r : errno + list ImageMetadata) : list ImageMetadata :=
  match r with
  | inr records => records
  | inl _ => []
  end.

(** A request answered from a tree that sits at [/srv/images]. *)
Definition sample_env (tree : option node) : env :=
  mkEnv sample_cwd
        (fun p => if path_eqb p sample_root then tree else None)
        "6f1c2a4e-0000-4000-8000-000000000001" 1700000000000.

(** The answer of [/scan] when the scan of [given] rejects with [e]. *)
Definition scan_error (given : string) (options : PartialScanOptions) (e : errno)
  : response :=
  mkResponse 500
    (Failure (mkErrorResponse "SCAN_ERROR" (MessageOf e) (Some (given, options)))).

(** The answer of [/scan] that carries the records [found_images]. *)
Definition scan_result (w : env) (found_images : list ImageMetadata) : response :=
  mkResponse 200
    (Result (mkScanResult (env_uuid w) (env_now w)
               (Z.of_nat (length found_images)) found_images)).

(** * Properties *)

(** ** The model on known values *)

Example sha256_constants :
  length Sha256.K = 64%nat /\ hd 0 Sha256.K = 0x428a2f98
  /\ last Sha256.K 0 = 0xc67178f2 /\ hd 0 Sha256.H0 = 0x6a09e667.
Proof. vm_compute. repeat split. Qed.

Example sha256_empty :
  Sha256.sha256_hex []
  = "e3b0c44298fc1c149afbf4c8996fb92427ae41e4649b934ca495991b7852b855".
Proof. vm_compute. reflexivity. Qed.

Example sha256_abc :
  Sha256.sha256_hex (bytes_of_string "abc")
  = "ba7816bf8f01cfea414140de5dae2223b00361a396177a9cb410ff61f20015ad".
Proof. vm_compute. reflexivity. Qed.

Example sha256_two_blocks :
  Sha256.sha256_hex
    (bytes_of_string "abcdbcdecdefdefgefghfghighijhijkijkljklmklmnlmnomnopnopq")
  = "248d6a61d20638b8e5c026930c3e6039a33ce45964ff2167f6ecedd419db06c1".
Proof. vm_compute. reflexivity. Qed.

Example extname_values :
  map Extname.extname
    ["index.html"; "index.coffee.md"; "index."; "index"; ".index"; ".index.md"; "..";
     "photo.JPG"]
  = [".html"; ".md"; "."; ""; ""; ".md"; ""; ".JPG"].
Proof. vm_compute. reflexivity. Qed.

(** The cases of the repository's test suite. *)
Example test_scan_finds_all_images :
  basenames (fst (scan sample_cwd sample_root (Some test_tree) no_options))
  = ["test3.gif"; "test4.jpg"; "test1.jpg"; "test2.png"].
Proof. vm_compute. reflexivity. Qed.

Example test_non_recursive :
  basenames (fst (scan sample_cwd sample_root (Some test_tree)
                    (mkPartial (Some false) None None None)))
  = ["test1.jpg"; "test2.png"].
Proof. vm_compute. reflexivity. Qed.

Example test_filter_by_type :
  basenames (fst (scan sample_cwd sample_root (Some test_tree)
                    (mkPartial None None (Some [".jpg"]) None)))
  = ["test4.jpg"; "test1.jpg"].
Proof. vm_compute. reflexivity. Qed.

Example test_maxSize_one_byte :
  basenames (fst (scan sample_cwd sample_root (Some test_tree)
                    (mkPartial None None None (Some 1))))
  = ["test3.gif"; "test4.jpg"; "test1.jpg"; "test2.png"].
Proof. vm_compute. reflexivity. Qed.

Example test_missing_root_rejects :
  fst (scan sample_cwd (mkPath true ["non"; "existent"; "path"]) None no_options)
  = inl ENOENT.
Proof. reflexivity. Qed.

Example sample_tree_files :
  map location (files true sample_tree)
  = [["a.jpg"]; ["b.png"]; ["c.txt"]; ["d"; "e.gif"]].
Proof. reflexivity. Qed.

(** The scenario of the specification: with the three picture types,
    [recursive = true] and [maxSize = 18], the records are those of
    [a.jpg] and [d/e.gif]. *)
Example sample_tree_scan :
  match fst (scan sample_cwd sample_root (Some sample_tree)
               (mkPartial (Some true) None (Some [".jpg"; ".png"; ".gif"]) (Some 18))) with
  | inr records =>
      map (fun m => (segs (im_path m), size m)) records
      = [(["a.jpg"], 10); (["d"; "e.gif"], 15)]
  | inl _ => False
  end.
Proof. vm_compute. reflexivity. Qed.

(** ** The incremental hash computes the standard digest *)

Module Sha256Facts.
Import Sha256.

Lemma absorb_short h data :
  (length data < 64)%nat -> absorb h data = (h, data).
Proof.
  intros H. rewrite absorb_equation_1.
  destruct (le_lt_dec 64 (length data)); [lia | reflexivity].
Qed.

Lemma absorb_block h data :
  (64 <= length data)%nat ->
  absorb h data = absorb (compress h (firstn 64 data)) (skipn 64 data).
Proof.
  intros H. rewrite absorb_equation_1.
  destruct (le_lt_dec 64 (length data)); [reflexivity | lia].
Qed.

(** Absorbing [a ++ b] is absorbing [a], then what [a] left over followed
    by [b]. *)
Lemma absorb_app (b : list byte) : forall (n : nat) (h : list Z) (a : list byte),
  (length a <= n)%nat ->
  absorb h (a ++ b) = absorb (fst (absorb h a)) (snd (absorb h a) ++ b).
Proof.
  induction n as [| n IH]; intros h a Hn.
  - destruct a; [| simpl in Hn; lia].
    rewrite (absorb_short h []) by (simpl; lia). reflexivity.
  - destruct (le_lt_dec 64 (length a)) as [Hge | Hlt].
    + rewrite (absorb_block h a) by exact Hge.
      rewrite (absorb_block h (a ++ b)) by (rewrite length_app; lia).
      rewrite firstn_app, skipn_app.
      replace (64 - length a)%nat with O by lia.
      rewrite firstn_O, skipn_O, app_nil_r.
      apply IH. rewrite length_skipn. lia.
    + rewrite (absorb_short h a) by exact Hlt. reflexivity.
Qed.



(** Absorbing is iterating the compression function over the blocks. *)
Lemma absorb_blocks : forall (n : nat) (h : list Z) (data : list byte),
  (length data <= n)%nat ->
  fst (absorb h data) = fold_left compress (blocks data) h.
Proof.
  induction n as [| n IH]; intros h data Hn.
  - rewrite absorb_short by lia. rewrite blocks_equation_1.
    destruct (le_lt_dec 64 (length data)); [lia | reflexivity].
  - rewrite blocks_equation_1.
    destruct (le_lt_dec 64 (length data)) as [Hge | Hlt].
    + rewrite absorb_block by exact Hge. cbn [blocks_clause_1 fold_left].
      apply IH. rewrite length_skipn. lia.
    + rewrite absorb_short by exact Hlt. reflexivity.
Qed.

(** A padded message is a whole number of blocks. *)
Lemma padding_length (len : nat) :
  ((len + length (padding len)) mod 64 = 0)%nat.
Proof.
  unfold padding. cbn [length]. rewrite length_app, repeat_length.
  cbn [be_bytes length].
  pose proof (Nat.div_mod_eq len 64) as Hdiv.
  pose proof (Nat.mod_upper_bound len 64 ltac:(lia)) as Hr.
  set (r := (len mod 64)%nat) in *. set (q := (len / 64)%nat) in *.
  destruct (r <? 56)%nat eqn:Hlt.
  - apply Nat.ltb_lt in Hlt.
    replace (len + S (55 - r + 8))%nat with ((q + 1) * 64)%nat by lia.
    apply Nat.Div0.mod_mul.
  - apply Nat.ltb_ge in Hlt.
    replace (len + S (119 - r + 8))%nat with ((q + 2) * 64)%nat by lia.
    apply Nat.Div0.mod_mul.
Qed.

Lemma fed_createHash : fed [] createHash.
Proof. split; [apply absorb_short; simpl; lia | reflexivity]. Qed.

Lemma fed_update msg hs chunk :
  fed msg hs -> fed (msg ++ chunk) (update hs chunk).
Proof.
  intros [Habs Htot]. unfold fed, update.
  rewrite (absorb_app chunk (length msg) H0 msg (le_n _)), Habs. simpl.
  destruct (absorb (chain hs) (pending hs ++ chunk)) as [h rest]. simpl.
  split; [reflexivity | rewrite length_app; lia].
Qed.

Lemma fed_digest msg hs :
  fed msg hs -> digest_hex hs = sha256_hex msg.
Proof.
  intros [Habs Htot]. unfold digest_hex, sha256_hex, sha256.
  rewrite <- (absorb_blocks _ H0 _ (le_n _)).
  rewrite (absorb_app (padding (length msg)) (length msg) H0 msg (le_n _)), Habs.
  simpl. rewrite Htot. reflexivity.
Qed.

End Sha256Facts.

(** ** Read streams *)

Lemma chunks_concat (n : nat) : forall (m : nat) (data : list byte),
  (length data <= m)%nat -> concat (chunks n data) = data.
Proof.
  induction m as [| m IH]; intros data Hm.
  - destruct data; [reflexivity | simpl in Hm; lia].
  - destruct data as [| b data]; [reflexivity |].
    simp chunks. cbn [concat firstn].
    rewrite IH by (rewrite length_skipn; simpl in Hm; lia).
    cbn [app]. rewrite firstn_skipn. reflexivity.
Qed.


Lemma emit_no_fault cs : delivered (emit cs None) = cs /\ ends_well (emit cs None) = true.
Proof.
  induction cs as [| c cs [IH1 IH2]]; simpl; [tauto |].
  rewrite IH1. tauto.
Qed.

Lemma emit_delivered cs : forall fault,
  ends_well (emit cs fault) = true -> delivered (emit cs fault) = cs.
Proof.
  induction cs as [| c cs IH]; intros [[[| k] e] |]; simpl; intros H;
    try reflexivity; try discriminate.
  - rewrite (IH (Some (k, e))) by exact H. reflexivity.
  - rewrite (IH None) by exact H. reflexivity.
Qed.


(** ** [calculateFileHash] *)

(** The handler of ['data'] passes the updated hash object on. *)
Lemma on_events_data (chunk : list byte) (rest : stream) (hs : Sha256.Hash) :
  on_events (OnData chunk rest) hs = on_events rest (Sha256.update hs chunk).
Proof.
  unfold on_events. cbn [run_handlers].
  destruct (run_handlers rest (Sha256.update hs chunk)). reflexivity.
Qed.

(** The promise settles according to how the stream ends; when it
    resolves, the value is the digest of everything delivered. *)
Lemma on_events_spec (s : stream) : forall (msg : list byte) (hs : Sha256.Hash),
  Sha256.fed msg hs ->
  match on_events s hs with
  | inr d => ends_well s = true /\ d = Sha256.sha256_hex (msg ++ concat (delivered s))
  | inl _ => ends_well s = false
  end.
Proof.
  induction s as [chunk rest IH | e |]; intros msg hs Hfed.
  - rewrite on_events_data. cbn [ends_well delivered concat].
    specialize (IH (msg ++ chunk) _ (Sha256Facts.fed_update _ _ chunk Hfed)).
    destruct (on_events rest (Sha256.update hs chunk)); [exact IH |].
    rewrite app_assoc. exact IH.
  - reflexivity.
  - cbn [on_events run_handlers fst ends_well delivered concat].
    rewrite app_nil_r. split; [reflexivity | apply Sha256Facts.fed_digest, Hfed].
Qed.

(** Which way the promise settles is read off the stream. *)
Lemma on_events_settles (s : stream) : forall hs,
  match stream_error s with
  | Some e => on_events s hs = inl e
  | None => exists d, on_events s hs = inr d
  end.
Proof.
  induction s as [chunk rest IH | e |]; intros hs; cbn [stream_error].
  - rewrite on_events_data. apply IH.
  - reflexivity.
  - eexists. reflexivity.
Qed.

Lemma calculateFileHash_digest (f : file) (d : string) :
  calculateFileHash f = inr d -> d = Sha256.sha256_hex (content f).
Proof.
  change (calculateFileHash f)
    with (on_events (createReadStream f highWaterMark) Sha256.createHash).
  unfold createReadStream. intros H.
  pose proof (on_events_spec
    (emit (chunks (Z.to_nat highWaterMark - 1) (content f)) (read_fault f))
    [] _ Sha256Facts.fed_createHash) as Hs.
  rewrite H in Hs. destruct Hs as [Hend ->].
  rewrite (emit_delivered _ _ Hend).
  rewrite (chunks_concat _ _ _ (le_n _)). reflexivity.
Qed.

Lemma calculateFileHash_readable (f : file) :
  read_fault f = None -> calculateFileHash f = inr (Sha256.sha256_hex (content f)).
Proof.
  intros Hf. destruct (calculateFileHash f) as [e | d] eqn:H.
  - change (calculateFileHash f)
      with (on_events (createReadStream f highWaterMark) Sha256.createHash) in H.
    unfold createReadStream in H.
    pose proof (on_events_spec
      (emit (chunks (Z.to_nat highWaterMark - 1) (content f)) (read_fault f))
      [] _ Sha256Facts.fed_createHash) as Hs.
    rewrite H, Hf in Hs.
    rewrite (proj2 (emit_no_fault _)) in Hs. discriminate.
  - f_equal. exact (calculateFileHash_digest f d H).
Qed.

(** ** Paths under the root *)

Module PathFacts.

Lemma valid_name_solid s : valid_name s = true -> solid s.
Proof.
  unfold valid_name, solid. intros H.
  apply andb_prop in H as [H _]. apply andb_prop in H as [H1 H2].
  split; [apply negb_true_iff, H1 | apply negb_true_iff, H2].
Qed.

Lemma step_abs_solid st s : solid s -> step_abs st s = s :: st.
Proof. intros [H1 H2]. unfold step_abs. rewrite H1, H2. reflexivity. Qed.

Lemma step_rel_solid st s : solid s -> step_rel st s = s :: st.
Proof. intros [H1 H2]. unfold step_rel. rewrite H1, H2. reflexivity. Qed.

Lemma normalize_abs_snoc l s :
  solid s -> normalize_abs (l ++ [s]) = normalize_abs l ++ [s].
Proof.
  intros H. unfold normalize_abs. rewrite fold_left_app. simpl.
  rewrite step_abs_solid by exact H. reflexivity.
Qed.

Lemma normalize_rel_snoc l s :
  solid s -> normalize_rel (l ++ [s]) = normalize_rel l ++ [s].
Proof.
  intros H. unfold normalize_rel. rewrite fold_left_app. simpl.
  rewrite step_rel_solid by exact H. reflexivity.
Qed.

Lemma step_abs_keeps_solid st s :
  Forall solid st -> Forall solid (step_abs st s).
Proof.
  intros H. unfold step_abs.
  destruct (is_blank s) eqn:Hb; [exact H |].
  destruct (is_dots s) eqn:Hd.
  - destruct st; [constructor | inversion H; assumption].
  - constructor; [split; assumption | exact H].
Qed.

Lemma fold_abs_solid l : forall st,
  Forall solid st -> Forall solid (fold_left step_abs l st).
Proof.
  induction l as [| s l IH]; intros st H; simpl; [exact H |].
  apply IH, step_abs_keeps_solid, H.
Qed.

Lemma normalize_abs_solid l : Forall solid (normalize_abs l).
Proof. apply Forall_rev, fold_abs_solid. constructor. Qed.

Lemma fold_abs_on_solid l : forall st,
  Forall solid l -> fold_left step_abs l st = rev l ++ st.
Proof.
  induction l as [| s l IH]; intros st H; simpl; [reflexivity |].
  inversion H as [| ? ? Hs Hl]; subst.
  rewrite step_abs_solid by exact Hs. rewrite IH by exact Hl.
  rewrite <- app_assoc. reflexivity.
Qed.

Lemma normalize_abs_idem l : normalize_abs (normalize_abs l) = normalize_abs l.
Proof.
  unfold normalize_abs at 1.
  rewrite fold_abs_on_solid by apply normalize_abs_solid.
  rewrite app_nil_r. apply rev_involutive.
Qed.

Lemma step_rel_keeps st s : Forall kept st -> Forall kept (step_rel st s).
Proof.
  intros H. unfold step_rel.
  destruct (is_blank s) eqn:Hb; [exact H |].
  destruct (is_dots s) eqn:Hd.
  - destruct st as [| t st]; [constructor; [exact Hb | constructor] |].
    destruct (is_dots t); [constructor; assumption | inversion H; assumption].
  - constructor; assumption.
Qed.

Lemma step_rel_then_abs st r s :
  Forall kept r ->
  fold_left step_abs (rev (step_rel r s)) st
  = step_abs (fold_left step_abs (rev r) st) s.
Proof.
  intros Hr. unfold step_rel.
  destruct (is_blank s) eqn:Hb.
  - unfold step_abs. rewrite Hb. reflexivity.
  - destruct (is_dots s) eqn:Hd.
    + destruct r as [| t r].
      * reflexivity.
      * destruct (is_dots t) eqn:Ht.
        -- simpl. rewrite !fold_left_app. reflexivity.
        -- inversion Hr as [| ? ? Hk _]; subst.
           simpl. rewrite fold_left_app. simpl.
           rewrite (step_abs_solid _ t) by (split; assumption).
           unfold step_abs. rewrite Hb, Hd. reflexivity.
    + simpl. rewrite fold_left_app. reflexivity.
Qed.

Lemma fold_rel_then_abs l : forall r st,
  Forall kept r ->
  fold_left step_abs (rev (fold_left step_rel l r)) st
  = fold_left step_abs l (fold_left step_abs (rev r) st).
Proof.
  induction l as [| s l IH]; intros r st Hr; simpl; [reflexivity |].
  rewrite IH by (apply step_rel_keeps, Hr).
  rewrite step_rel_then_abs by exact Hr. reflexivity.
Qed.

Lemma normalize_abs_app_rel a b :
  normalize_abs (a ++ normalize_rel b) = normalize_abs (a ++ b).
Proof.
  unfold normalize_abs, normalize_rel. rewrite !fold_left_app.
  rewrite fold_rel_then_abs by constructor. reflexivity.
Qed.

Section Resolve.

Variable cwd : list string.

Lemma resolve_join (p : path) (name : string) :
  solid name ->
  path_resolve cwd (path_join p name)
  = mkPath true (segs (path_resolve cwd p) ++ [name]).
Proof.
  intros H. unfold path_join, path_resolve, normalize.
  destruct p as [[|] l]; simpl.
  - rewrite normalize_abs_idem, normalize_abs_snoc by exact H. reflexivity.
  - rewrite normalize_abs_app_rel, app_assoc, normalize_abs_snoc by exact H.
    reflexivity.
Qed.

Lemma resolve_absolute (p : path) : absolute (path_resolve cwd p) = true.
Proof. unfold path_resolve. destruct (absolute p); reflexivity. Qed.

Lemma resolve_descend (names : list string) : forall (p : path),
  Forall solid names ->
  path_resolve cwd (fold_left path_join names p)
  = mkPath true (segs (path_resolve cwd p) ++ names).
Proof.
  induction names as [| n names IH]; intros p H; simpl.
  - rewrite app_nil_r. pose proof (resolve_absolute p) as Ha.
    destruct (path_resolve cwd p) as [a l]. simpl in *. subst. reflexivity.
  - inversion H as [| ? ? Hn Hnames]; subst.
    rewrite IH by exact Hnames. rewrite resolve_join by exact Hn.
    simpl. rewrite <- app_assoc. reflexivity.
Qed.

Lemma strip_common_prefix (a b : list string) :
  strip_common a (a ++ b) = ([], b).
Proof.
  induction a as [| x a IH]; simpl.
  - destruct b; reflexivity.
  - rewrite String.eqb_refl. exact IH.
Qed.

Lemma relative_below (root q : path) (names : list string) :
  segs (path_resolve cwd q) = segs (path_resolve cwd root) ++ names ->
  path_relative cwd root q = mkPath false names.
Proof.
  intros H. unfold path_relative. rewrite H, strip_common_prefix. reflexivity.
Qed.

End Resolve.

End PathFacts.

(** ** The walk appends to the heap and never reads it *)

Module Frame.

Lemma append_nil h : append h [] [] = h.
Proof. destruct h. unfold append. simpl. rewrite !app_nil_r. reflexivity. Qed.

Lemma append_append h r1 t1 r2 t2 :
  append (append h r1 t1) r2 t2 = append h (r1 ++ r2) (t1 ++ t2).
Proof. unfold append. simpl. rewrite !app_assoc. reflexivity. Qed.

Lemma framed_ret {A} (a : A) : framed (ret a).
Proof. intros h. unfold ret. simpl. rewrite append_nil. reflexivity. Qed.

Lemma framed_throw {A} (e : errno) : framed (@throw A e).
Proof. intros h. unfold throw. simpl. rewrite append_nil. reflexivity. Qed.

Lemma framed_await {A} (r : errno + A) : framed (await r).
Proof. destruct r; [apply framed_throw | apply framed_ret]. Qed.

Lemma framed_emit_io ev : framed (emit_io ev).
Proof. intros h. unfold emit_io, append. simpl. rewrite app_nil_r. reflexivity. Qed.

Lemma framed_push m : framed (push m).
Proof. intros h. unfold push, append. simpl. rewrite app_nil_r. reflexivity. Qed.

Lemma framed_bind {A B} (m : M A) (k : A -> M B) :
  framed m -> (forall a, framed (k a)) -> framed (bind m k).
Proof.
  intros Hm Hk h. unfold bind. rewrite (Hm h).
  destruct (m empty_heap) as [[e | a] h0]; simpl; [reflexivity |].
  rewrite (Hk a (append h _ _)), (Hk a h0). simpl.
  rewrite append_append. destruct h0. reflexivity.
Qed.

Lemma framed_try_catch {A} (m : M A) (handler : errno -> M A) :
  framed m -> (forall e, framed (handler e)) -> framed (try_catch m handler).
Proof.
  intros Hm Hk h. unfold try_catch. rewrite (Hm h).
  destruct (m empty_heap) as [[e | a] h0]; simpl; [| reflexivity].
  rewrite (Hk e (append h _ _)), (Hk e h0). simpl.
  rewrite append_append. destruct h0. reflexivity.
Qed.

Create HintDb frame.
#[local] Hint Resolve framed_ret framed_throw framed_await framed_emit_io
  framed_push : frame.

Section Scanner.

Variable cwd : list string.
Variable rootPath : path.
Variable options : ScanOptions.

Lemma framed_getImageMetadata p f : framed (getImageMetadata cwd rootPath p f).
Proof.
  unfold getImageMetadata.
  repeat (apply framed_bind; [auto with frame | intros ?]). auto with frame.
Qed.

Lemma framed_processFile p f : framed (processFile cwd rootPath options p f).
Proof.
  unfold processFile. apply framed_try_catch.
  - apply framed_bind; [apply framed_getImageMetadata | intros m].
    destruct (isValidSize m (maxSize options)); auto with frame.
  - intros e. auto with frame.
Qed.

(** A file's failure never leaves [processFile]. *)
Lemma processFile_returns p f h :
  fst (processFile cwd rootPath options p f h) = inr tt.
Proof.
  unfold processFile, try_catch, bind.
  destruct (getImageMetadata cwd rootPath p f h) as [[e | m] h']; [reflexivity |].
  destruct (isValidSize m (maxSize options)); reflexivity.
Qed.

Lemma visit_run p x h :
  visit cwd rootPath options p x h
  = (inr tt, append h (visit_results cwd rootPath options p x)
                      (visit_trace cwd rootPath options p x)).
Proof.
  unfold visit_results, visit_trace, visit.
  destruct (isValidImageFile (fname x) options).
  - rewrite (framed_processFile _ _ h).
    pose proof (processFile_returns (full_path p x) (ffile x) empty_heap) as Hr.
    fold empty_heap. rewrite Hr. reflexivity.
  - unfold ret. simpl. rewrite append_nil. reflexivity.
Qed.

End Scanner.

End Frame.

(** ** Trees *)

Lemma node_tree_ind (P : node -> Prop) :
  (forall f, P (NFile f)) ->
  (forall fault entries,
      Forall (fun e => P (snd e)) entries -> P (NDir fault entries)) ->
  P NOther ->
  forall n, P n.
Proof.
  intros Hfile Hdir Hother. fix IH 1. intros [f | fault entries |].
  - apply Hfile.
  - apply Hdir. induction entries as [| [name sub] es IHes]; constructor.
    + simpl. apply IH.
    + exact IHes.
  - apply Hother.
Qed.

(** ** What one run of the walk does *)

Module Walk.
Import Frame.

Section Scanner.

Variable cwd : list string.
Variable rootPath : path.
Variable options : ScanOptions.

Local Abbreviation deep := (recursive options).
Local Abbreviation scanDir := (scanDirectory cwd rootPath options).
Local Abbreviation loop := (forEntries cwd rootPath options scanDir).
Local Abbreviation outputs := (visit_results cwd rootPath options).
Local Abbreviation events := (visit_trace cwd rootPath options).
Local Abbreviation walked := (walked cwd rootPath options).
Local Abbreviation entry_listable := (entry_listable (recursive options)).
Local Abbreviation entry_fails := (entry_fails (recursive options)).

Lemma file_level_app t1 t2 : file_level (t1 ++ t2) = file_level t1 ++ file_level t2.
Proof. apply filter_app. Qed.

Lemma file_level_events p x : file_level (events p x) = events p x.
Proof.
  unfold visit_trace, visit, processFile, try_catch, bind, getImageMetadata.
  destruct (isValidImageFile (fname x) options); [| reflexivity].
  simpl. destruct (fs_stat (ffile x)); simpl; [reflexivity |].
  destruct (calculateFileHash (ffile x)); simpl; [reflexivity |].
  match goal with |- context [if ?b then _ else _] => destruct b end; reflexivity.
Qed.

Lemma outputs_below p name l :
  flat_map (outputs p) (map (below name) l)
  = flat_map (outputs (path_join p name)) l.
Proof. induction l as [| x l IH]; simpl; [| rewrite IH]; reflexivity. Qed.

Lemma events_below p name l :
  flat_map (events p) (map (below name) l)
  = flat_map (events (path_join p name)) l.
Proof. induction l as [| x l IH]; simpl; [| rewrite IH]; reflexivity. Qed.

Lemma entry_fails_cons entry entries e :
  entry_fails entries e -> entry_fails (entry :: entries) e.
Proof.
  intros (name & sub & H1 & H2 & H3). exists name, sub.
  split; [exact H1 | split; [right; exact H2 | exact H3]].
Qed.

Lemma loop_walked (entries : list (string * node)) :
  Forall (fun e => forall p h,
            walked (files deep (snd e)) (listing_fails deep (snd e))
                   (listable deep (snd e) = true) p h (scanDir p (snd e) h))
         entries ->
  forall p h,
    walked (flat_map (entry_files deep (files deep)) entries)
           (entry_fails entries)
           (forallb entry_listable entries = true)
           p h (loop p entries h).
Proof.
  induction 1 as [| [name entry] es Hentry _ IH]; intros p h.
  - exists (inr tt), [], [], []. simpl. unfold ret.
    rewrite append_nil. auto.
  - cbn [forEntries flat_map forallb].
    unfold entry_files at 1, entry_listable at 1. cbn [fst snd] in *.
    destruct (isDirectory entry && deep) eqn:Hdeep.
    + (* a directory, entered *)
      apply andb_prop in Hdeep as [Hdir Hrec].
      unfold bind.
      destruct (Hentry (path_join p name) h)
        as (r1 & done1 & rest1 & t1 & Hrun & Hall & Hlog & Hres).
      rewrite Hrun. destruct r1 as [e | []].
      * exists (inl e), (map (below name) done1),
          (map (below name) rest1 ++ flat_map (entry_files deep (files deep)) es), t1.
        rewrite outputs_below, events_below, Hall, map_app, <- app_assoc.
        repeat split; try assumption.
        exists name, entry. simpl. auto.
      * destruct Hres as [-> Hok]. rewrite app_nil_r in Hall.
        destruct (IH p (append h (flat_map (outputs (path_join p name)) done1) t1))
          as (r2 & done2 & rest2 & t2 & Hrun2 & Hall2 & Hlog2 & Hres2).
        exists r2, (map (below name) done1 ++ done2), rest2, (t1 ++ t2).
        rewrite Hrun2, append_append, !flat_map_app, outputs_below, events_below.
        rewrite file_level_app, Hlog, Hlog2, Hall, Hall2, <- app_assoc.
        repeat split.
        destruct r2 as [e | []].
        -- apply entry_fails_cons, Hres2.
        -- destruct Hres2 as [-> Hok2]. rewrite Hok, Hok2. auto.
    + (* a file, or something the walk passes over *)
      destruct (IH p (append h (outputs p (mkFound [] name
                  (match file_of entry with Some f => f | None => mkFile [] 0 0 None None end)))
                  (events p (mkFound [] name
                  (match file_of entry with Some f => f | None => mkFile [] 0 0 None None end)))))
        as (r2 & done2 & rest2 & t2 & Hrun2 & Hall2 & Hlog2 & Hres2).
      destruct entry as [f | fault sub |]; cbn [isFile file_of andb] in *.
      * pose proof (visit_run cwd rootPath options p (mkFound [] name f) h) as Hvisit.
        assert (Hstep :
          (if isValidImageFile name options
           then bind (processFile cwd rootPath options (path_join p name) f)
                     (fun _ => loop p es)
           else loop p es) h
          = loop p es
              (append h (outputs p (mkFound [] name f)) (events p (mkFound [] name f)))).
        { unfold visit in Hvisit. cbn [fname ffile] in Hvisit.
          unfold full_path in Hvisit. cbn [dirs fname fold_left] in Hvisit.
          destruct (isValidImageFile name options).
          - unfold bind. rewrite Hvisit. reflexivity.
          - unfold ret in Hvisit. injection Hvisit as <-. reflexivity. }
        rewrite Hstep, Hrun2.
        exists r2, (mkFound [] name f :: done2), rest2,
          (events p (mkFound [] name f) ++ t2).
        rewrite append_append. cbn [flat_map]. rewrite file_level_app, file_level_events.
        rewrite Hlog2, Hall2. repeat split.
        destruct r2 as [e | []]; [apply entry_fails_cons, Hres2 | exact Hres2].
      * destruct (IH p h) as (r & done & rest & t & Hrun & Hall & Hlog & Hres).
        exists r, done, rest, t. rewrite Hrun. repeat split; try assumption.
        destruct r as [e | []]; [apply entry_fails_cons, Hres | exact Hres].
      * destruct (IH p h) as (r & done & rest & t & Hrun & Hall & Hlog & Hres).
        exists r, done, rest, t. rewrite Hrun. repeat split; try assumption.
        destruct r as [e | []]; [apply entry_fails_cons, Hres | exact Hres].
Qed.

Lemma emit_io_then {A} (ev : io_event) (m : M A) h :
  bind (emit_io ev) (fun _ => m) h = m (append h [] [ev]).
Proof. unfold bind, emit_io, append. simpl. rewrite app_nil_r. reflexivity. Qed.

Lemma scanDirectory_walked (dir : node) : forall p h,
  walked (files deep dir) (listing_fails deep dir) (listable deep dir = true)
         p h (scanDir p dir h).
Proof.
  induction dir as [f | fault entries IH |] using node_tree_ind; intros p h;
    cbn [scanDirectory]; rewrite emit_io_then.
  - exists (inl ENOTDIR), [], [], [Readdir p]. repeat split. constructor.
  - destruct fault as [e |].
    + exists (inl e), [], (files deep (NDir (Some e) entries)), [Readdir p].
      repeat split. constructor.
    + destruct (loop_walked entries IH p (append h [] [Readdir p]))
        as (r & done & rest & t & Hrun & Hall & Hlog & Hres).
      exists r, done, rest, (Readdir p :: t).
      rewrite Hrun, append_append. simpl. repeat split; try assumption.
      destruct r as [e | []]; [| exact Hres].
      destruct Hres as (name & sub & H1 & H2 & H3 & H4).
      exact (fails_below deep entries name sub e H1 H2 H3 H4).
  - exists (inl ENOTDIR), [], [], [Readdir p]. repeat split. constructor.
Qed.

Lemma loop_outcome (entries : list (string * node)) :
  Forall (fun e => forall p h,
            fst (scanDir p (snd e) h) = outcome (first_failure deep (snd e)))
         entries ->
  forall p h,
    fst (loop p entries h) = outcome (first_of deep (first_failure deep) entries).
Proof.
  induction 1 as [| [name entry] es Hentry _ IH]; intros p h; [reflexivity |].
  cbn [forEntries first_of fold_right fst snd] in *.
  destruct (isDirectory entry && deep).
  - unfold bind. specialize (Hentry (path_join p name) h).
    destruct (scanDir (path_join p name) entry h) as [[e | []] h'];
      cbn [fst] in Hentry;
      destruct (first_failure deep entry); try discriminate.
    + exact Hentry.
    + apply IH.
  - destruct (isFile entry && isValidImageFile name options); [| apply IH].
    destruct (file_of entry) as [f |]; [| apply IH].
    unfold bind.
    pose proof (processFile_returns cwd rootPath options (path_join p name) f h) as Hr.
    destruct (processFile cwd rootPath options (path_join p name) f h) as [[e | []] h'];
      [discriminate | apply IH].
Qed.

(** The walk fails with the error of the first listing that fails, and
    returns when there is none. *)
Lemma scanDirectory_outcome (dir : node) : forall p h,
  fst (scanDir p dir h) = outcome (first_failure deep dir).
Proof.
  induction dir as [f | fault entries IH |] using node_tree_ind; intros p h;
    cbn [scanDirectory first_failure]; rewrite emit_io_then; try reflexivity.
  destruct fault as [e |]; [reflexivity |].
  apply loop_outcome, IH.
Qed.

End Scanner.

End Walk.

(** ** Files of a well-formed tree *)

Module TreeFacts.

Lemma location_below name x : location (below name x) = name :: location x.
Proof. reflexivity. Qed.

Lemma in_entry_files deep (fs : node -> list found) (e : string * node) x :
  In x (entry_files deep fs e) ->
  (exists y, x = below (fst e) y /\ In y (fs (snd e)) /\ isDirectory (snd e) = true /\ deep = true)
  \/ (exists f, x = mkFound [] (fst e) f /\ snd e = NFile f).
Proof.
  unfold entry_files. destruct (isDirectory (snd e) && deep) eqn:H.
  - apply andb_prop in H as [H1 H2]. rewrite in_map_iff.
    intros (y & <- & Hy). left. exists y. auto.
  - destruct (snd e) as [f | |]; simpl; try tauto.
    intros [<- | []]. right. exists f. auto.
Qed.

(** Every name on the way to a file is one [readdir] can report. *)
Lemma files_valid deep (dir : node) :
  well_formed dir = true ->
  forall x, In x (files deep dir) ->
  Forall (fun s => valid_name s = true) (location x).
Proof.
  induction dir as [f | fault entries IH |] using node_tree_ind;
    intros Hwf x Hx; try contradiction.
  cbn [files well_formed] in *. apply andb_prop in Hwf as [_ Hwf].
  rewrite forallb_forall in Hwf. rewrite Forall_forall in IH.
  apply in_flat_map in Hx as (e & He & Hx).
  specialize (Hwf e He). apply andb_prop in Hwf as [Hname Hsub].
  apply in_entry_files in Hx as [(y & -> & Hy & _) | (f & -> & _)].
  - rewrite location_below. constructor; [exact Hname |].
    exact (IH e He Hsub y Hy).
  - repeat constructor. exact Hname.
Qed.

(** [files] lists exactly the files located in the tree. *)
Lemma files_located deep (dir : node) (x : found) :
  In x (files deep dir) <-> located deep dir x.
Proof.
  split.
  - revert x. induction dir as [f | fault entries IH |] using node_tree_ind;
      intros x Hx; try contradiction.
    cbn [files] in Hx. rewrite Forall_forall in IH.
    apply in_flat_map in Hx as ([name sub] & He & Hx).
    apply in_entry_files in Hx as [(y & -> & Hy & Hdir & Hdeep) | (f & -> & Hf)];
      cbn [fst snd] in *.
    + apply (located_below deep fault entries name sub y Hdeep He Hdir).
      exact (IH _ He y Hy).
    + subst sub. apply located_here. exact He.
  - induction 1 as [fault entries name f Hin
                   | fault entries name sub x Hdeep Hin Hdir _ IH];
      cbn [files]; apply in_flat_map.
    + exists (name, NFile f). split; [exact Hin |]. left. reflexivity.
    + exists (name, sub). split; [exact Hin |].
      unfold entry_files. cbn [fst snd]. rewrite Hdir.
      replace (true && deep) with true by (rewrite Hdeep; reflexivity).
      apply in_map, IH.
Qed.

(** A tree is listable unless one of its listings fails. *)
Lemma not_listable_fails deep (dir : node) :
  listable deep dir = false -> exists e, listing_fails deep dir e.
Proof.
  induction dir as [f | fault entries IH |] using node_tree_ind; intros Hbad.
  - exists ENOTDIR. constructor.
  - destruct fault as [e |]; [exists e; constructor |].
    cbn [listable] in Hbad.
    induction entries as [| [name sub] es IHes]; [discriminate |].
    inversion IH as [| ? ? IHsub IHrest]; subst.
    cbn [forallb fst snd] in Hbad. apply andb_false_iff in Hbad as [Hsub | Hrest].
    + destruct (isDirectory sub && deep) eqn:Hd; [| discriminate].
      apply andb_prop in Hd as [Hdir Hdeep].
      destruct (IHsub Hsub) as [e He]. exists e.
      apply (fails_below deep _ name sub e Hdeep); [left; reflexivity | exact Hdir | exact He].
    + destruct (IHes IHrest Hrest) as [e He]. exists e.
      inversion He as [| | | ? name' sub' ? Hdeep Hin Hdir Hfail]; subst.
      eapply fails_below; [reflexivity | right; exact Hin | exact Hdir | exact Hfail].
  - exists ENOTDIR. constructor.
Qed.

(** The first failure is a failure, and there is one as soon as some
    listing fails. *)
Lemma first_failure_fails deep (dir : node) (e : errno) :
  first_failure deep dir = Some e -> listing_fails deep dir e.
Proof.
  revert e. induction dir as [f | fault entries IH |] using node_tree_ind;
    intros e H; cbn [first_failure] in H.
  - injection H as <-. constructor.
  - destruct fault as [e' |]; [injection H as <-; constructor |].
    induction entries as [| [name sub] es IHes]; [discriminate |].
    inversion IH as [| ? ? IHsub IHrest]; subst.
    cbn [first_of fold_right fst snd] in H, IHsub.
    destruct (isDirectory sub && deep) eqn:Hd.
    + apply andb_prop in Hd as [Hdir Hdeep].
      destruct (first_failure deep sub) as [err |] eqn:Hsub.
      * injection H as <-.
        apply (fails_below deep _ name sub err Hdeep);
          [left; reflexivity | exact Hdir | apply IHsub; reflexivity].
      * specialize (IHes IHrest H).
        inversion IHes as [| | | ? name' sub' ? Hdeep' Hin' Hdir' Hfail']; subst.
        eapply fails_below; [reflexivity | right; exact Hin' | exact Hdir' | exact Hfail'].
    + specialize (IHes IHrest H).
      inversion IHes as [| | | ? name' sub' ? Hdeep' Hin' Hdir' Hfail']; subst.
      eapply fails_below; [reflexivity | right; exact Hin' | exact Hdir' | exact Hfail'].
  - injection H as <-. constructor.
Qed.

Lemma first_failure_listable deep (dir : node) :
  first_failure deep dir = None <-> listable deep dir = true.
Proof.
  induction dir as [f | fault entries IH |] using node_tree_ind;
    cbn [first_failure listable]; try (split; discriminate).
  destruct fault as [e |]; [split; discriminate |].
  induction entries as [| [name sub] es IHes]; [split; reflexivity |].
  inversion IH as [| ? ? IHsub IHrest]; subst.
  cbn [first_of fold_right forallb fst snd] in *.
  specialize (IHes IHrest).
  destruct (isDirectory sub && deep).
  - destruct (first_failure deep sub) as [err |].
    + split; [discriminate |]. intros H. apply andb_prop in H as [H _].
      apply IHsub in H. discriminate.
    + rewrite (proj1 IHsub eq_refl). exact IHes.
  - exact IHes.
Qed.

Lemma entry_files_head deep fs e x :
  In x (entry_files deep fs e) -> hd "" (location x) = fst e.
Proof.
  intros H. apply in_entry_files in H as [(y & -> & _) | (f & -> & _)]; reflexivity.
Qed.

Lemma distinct_cons n names :
  distinct (n :: names) = true -> ~ In n names /\ distinct names = true.
Proof.
  simpl. intros H. apply andb_prop in H as [H1 H2]. split; [| exact H2].
  intros Hin. apply negb_true_iff in H1.
  assert (existsb (String.eqb n) names = true) as Hex.
  { apply existsb_exists. exists n. split; [exact Hin | apply String.eqb_refl]. }
  congruence.
Qed.

Lemma NoDup_app_disjoint {A} (l1 l2 : list A) :
  NoDup l1 -> NoDup l2 -> (forall a, In a l1 -> ~ In a l2) -> NoDup (l1 ++ l2).
Proof.
  induction 1 as [| a l1 Ha Hl1 IH]; intros H2 Hdis; simpl; [exact H2 |].
  constructor.
  - rewrite in_app_iff. intros [H | H]; [exact (Ha H) |].
    exact (Hdis a (or_introl eq_refl) H).
  - apply IH; [exact H2 |]. intros b Hb. apply Hdis. right. exact Hb.
Qed.

(** No two files of the tree share a location. *)
Lemma files_NoDup deep (dir : node) :
  well_formed dir = true -> NoDup (map location (files deep dir)).
Proof.
  induction dir as [f | fault entries IH |] using node_tree_ind;
    intros Hwf; try constructor.
  cbn [files well_formed] in *. apply andb_prop in Hwf as [Hdist Hwf].
  induction entries as [| e es IHes]; [constructor |].
  cbn [flat_map map forallb] in *. apply andb_prop in Hwf as [He Hes].
  apply andb_prop in He as [_ Hsub].
  apply distinct_cons in Hdist as [Hfresh Hdist].
  inversion IH as [| ? ? IHe IHrest]; subst.
  rewrite map_app. apply NoDup_app_disjoint.
  - unfold entry_files. destruct (isDirectory (snd e) && deep).
    + rewrite map_map.
      rewrite (map_ext _ (fun y => fst e :: location y)) by reflexivity.
      rewrite <- (map_map location (cons (fst e))).
      apply Injective_map_NoDup; [| exact (IHe Hsub)].
      intros a b Hab. congruence.
    + destruct (file_of (snd e)); repeat constructor. simpl. tauto.
  - exact (IHes IHrest Hdist Hes).
  - intros loc H1 H2.
    apply in_map_iff in H1 as (x & <- & Hx).
    apply in_map_iff in H2 as (y & Hxy & Hy).
    apply in_flat_map in Hy as (e' & He' & Hy).
    apply entry_files_head in Hx. apply entry_files_head in Hy.
    apply Hfresh. apply in_map_iff. exists e'. split; [| exact He'].
    congruence.
Qed.

Lemma entry_files_shallow fs fs' e :
  entry_files false fs e
  = filter (fun x => (depth x =? 0)%nat) (entry_files true fs' e).
Proof.
  unfold entry_files. rewrite !andb_false_r, andb_true_r.
  destruct (snd e) as [f | fault sub |]; simpl; try reflexivity.
  induction (fs' (NDir fault sub)) as [| y l IH]; simpl; [reflexivity | exact IH].
Qed.

(** The files a shallow walk sees are the top-level ones of a deep walk. *)
Lemma files_shallow (dir : node) :
  files false dir = filter (fun x => (depth x =? 0)%nat) (files true dir).
Proof.
  destruct dir as [f | fault entries |]; try reflexivity.
  cbn [files]. induction entries as [| e es IH]; [reflexivity |].
  cbn [flat_map]. rewrite filter_app, <- IH.
  rewrite (entry_files_shallow (files false) (files true)). reflexivity.
Qed.

Lemma listable_shallow (dir : node) :
  listable true dir = true -> listable false dir = true.
Proof.
  destruct dir as [f | [e |] entries |]; simpl; try discriminate.
  intros _. apply forallb_forall. intros x _. rewrite andb_false_r. reflexivity.
Qed.

Lemma listing_fails_not_listable deep dir e :
  listing_fails deep dir e -> listable deep dir = false.
Proof.
  induction 1 as [f | | e entries | entries name sub e Hdeep Hin Hdir _ IH];
    try reflexivity.
  simpl. destruct (forallb _ entries) eqn:Hall; [| reflexivity].
  rewrite forallb_forall in Hall. specialize (Hall _ Hin). simpl in Hall.
  rewrite IH, Hdir, Hdeep in Hall. discriminate.
Qed.

End TreeFacts.

(** ** What the walk does with one file *)

Module FileFacts.

Section Scanner.

Variable cwd : list string.
Variable rootPath : path.
Variable options : ScanOptions.

Lemma extract_spec (p : path) (f : file) :
  extract cwd rootPath p f
  = match fs_stat f with
    | inl e => inl e
    | inr stats =>
        match calculateFileHash f with
        | inl e => inl e
        | inr digest =>
            inr (mkImageMetadata (path_relative cwd rootPath p) (path_resolve cwd p)
                   (st_size stats) None digest (st_birthtime stats) (st_mtime stats))
        end
    end.
Proof.
  unfold extract, getImageMetadata, bind, emit_io, await. simpl.
  destruct (fs_stat f); simpl; [reflexivity |].
  destruct (calculateFileHash f); reflexivity.
Qed.

Lemma visit_results_spec (p : path) (x : found) :
  visit_results cwd rootPath options p x
  = if isValidImageFile (fname x) options then
      match extract cwd rootPath (full_path p x) (ffile x) with
      | inr m => if isValidSize m (maxSize options) then [m] else []
      | inl _ => []
      end
    else [].
Proof.
  rewrite extract_spec.
  unfold visit_results, visit, processFile, try_catch, bind, getImageMetadata,
    emit_io, await.
  destruct (isValidImageFile (fname x) options); [| reflexivity]. simpl.
  destruct (fs_stat (ffile x)); simpl; [reflexivity |].
  destruct (calculateFileHash (ffile x)); simpl; [reflexivity |].
  match goal with |- context [if ?b then _ else _] => destruct b end; reflexivity.
Qed.

Lemma visit_trace_spec (p : path) (x : found) :
  visit_trace cwd rootPath options p x
  = if isValidImageFile (fname x) options then
      match fs_stat (ffile x) with
      | inl e => [Stat (full_path p x);
                  ConsoleError (ProcessingFile (full_path p x) e)]
      | inr _ =>
          match calculateFileHash (ffile x) with
          | inl e => [Stat (full_path p x); ReadStream (full_path p x);
                      ConsoleError (ProcessingFile (full_path p x) e)]
          | inr _ => [Stat (full_path p x); ReadStream (full_path p x)]
          end
      end
    else [].
Proof.
  unfold visit_trace, visit, processFile, try_catch, bind, getImageMetadata,
    emit_io, await.
  destruct (isValidImageFile (fname x) options); [| reflexivity]. simpl.
  destruct (fs_stat (ffile x)); simpl; [reflexivity |].
  destruct (calculateFileHash (ffile x)); simpl; [reflexivity |].
  match goal with |- context [if ?b then _ else _] => destruct b end; reflexivity.
Qed.

(** One diagnostic per file whose extraction fails, none otherwise. *)
Lemma visit_diagnostics (p : path) (x : found) :
  diagnostics (visit_trace cwd rootPath options p x)
  = if isValidImageFile (fname x) options then
      match extract cwd rootPath (full_path p x) (ffile x) with
      | inl e => [ProcessingFile (full_path p x) e]
      | inr _ => []
      end
    else [].
Proof.
  rewrite visit_trace_spec, extract_spec.
  destruct (isValidImageFile (fname x) options); [| reflexivity].
  destruct (fs_stat (ffile x)); [reflexivity |].
  destruct (calculateFileHash (ffile x)); reflexivity.
Qed.

End Scanner.

(** The flag [recursive] plays no part in how a file is handled. *)
Lemma visit_results_flag cwd rootPath (o o' : ScanOptions) p x :
  fileTypes o = fileTypes o' -> maxSize o = maxSize o' ->
  visit_results cwd rootPath o p x = visit_results cwd rootPath o' p x.
Proof.
  intros Ht Hm. rewrite !visit_results_spec.
  unfold isValidImageFile. rewrite Ht, Hm. reflexivity.
Qed.

End FileFacts.

(** ** What [scan] returns *)

Module ScanFacts.
Import Frame.

Section Scan.

Variable cwd : list string.
Variable rootPath : path.
Variable options : PartialScanOptions.

Local Abbreviation merged := (spread defaultOptions options).
Local Abbreviation deep := (recursive (spread defaultOptions options)).
Local Abbreviation outputs :=
  (visit_results cwd rootPath (spread defaultOptions options) rootPath).
Local Abbreviation events :=
  (visit_trace cwd rootPath (spread defaultOptions options) rootPath).

Lemma scan_missing_root :
  scan cwd rootPath None options
  = (inl ENOENT, [Readdir rootPath; ConsoleError (ScanningDirectory rootPath ENOENT)]).
Proof. reflexivity. Qed.

(** Either the walk handled every file and [scan] returns their records,
    or a listing failed and [scan] rethrows after logging. *)
Lemma scan_walked (dir : node) :
  exists done rest t,
    files deep dir = done ++ rest
    /\ file_level t = flat_map events done
    /\ ((scan cwd rootPath (Some dir) options = (inr (flat_map outputs done), t)
         /\ rest = [] /\ listable deep dir = true)
        \/ (exists e,
              scan cwd rootPath (Some dir) options
              = (inl e, t ++ [ConsoleError (ScanningDirectory rootPath e)])
              /\ listing_fails deep dir e)).
Proof.
  destruct (Walk.scanDirectory_walked cwd rootPath merged dir rootPath empty_heap)
    as (r & done & rest & t & Hrun & Hall & Hlog & Hres).
  exists done, rest, t. split; [exact Hall | split; [exact Hlog |]].
  unfold scan, try_catch, bind, read_results. fold empty_heap. rewrite Hrun.
  destruct r as [e | []].
  - right. exists e. split; [reflexivity | exact Hres].
  - left. split; [reflexivity | exact Hres].
Qed.

Lemma scan_listable (dir : node) :
  listable deep dir = true ->
  exists t,
    scan cwd rootPath (Some dir) options = (inr (flat_map outputs (files deep dir)), t)
    /\ file_level t = flat_map events (files deep dir).
Proof.
  intros Hok.
  destruct (scan_walked dir) as (done & rest & t & Hall & Hlog & [(Hrun & -> & _) | (e & _ & Hfail)]).
  - rewrite app_nil_r in Hall. subst done. exists t. auto.
  - apply TreeFacts.listing_fails_not_listable in Hfail. congruence.
Qed.

Lemma scan_returned (root : option node) rs t :
  scan cwd rootPath root options = (inr rs, t) ->
  exists dir,
    root = Some dir /\ listable deep dir = true
    /\ rs = flat_map outputs (files deep dir)
    /\ file_level t = flat_map events (files deep dir).
Proof.
  destruct root as [dir |]; [| rewrite scan_missing_root; discriminate].
  intros Hscan. exists dir.
  destruct (scan_walked dir) as (done & rest & t' & Hall & Hlog & [(Hrun & -> & Hok) | (e & Hrun & _)]);
    rewrite Hrun in Hscan; [| discriminate].
  rewrite app_nil_r in Hall. subst done. injection Hscan as <- <-. auto.
Qed.

Lemma scan_unlistable (dir : node) :
  listable deep dir = false ->
  exists e t,
    scan cwd rootPath (Some dir) options
    = (inl e, t ++ [ConsoleError (ScanningDirectory rootPath e)])
    /\ listing_fails deep dir e.
Proof.
  intros Hbad.
  destruct (scan_walked dir) as (done & rest & t & _ & _ & [(_ & _ & Hok) | (e & Hrun & Hfail)]).
  - congruence.
  - eauto.
Qed.

Lemma scan_first_failure (dir : node) (e : errno) :
  first_failure deep dir = Some e ->
  exists t,
    scan cwd rootPath (Some dir) options
    = (inl e, t ++ [ConsoleError (ScanningDirectory rootPath e)]).
Proof.
  intros Hfirst.
  pose proof (Walk.scanDirectory_outcome cwd rootPath merged dir rootPath empty_heap)
    as Hout.
  rewrite Hfirst in Hout.
  unfold scan, try_catch, bind, read_results. fold empty_heap.
  destruct (scanDirectory cwd rootPath merged rootPath dir empty_heap) as [r h].
  cbn [fst outcome] in Hout. subst r.
  exists (trace h). reflexivity.
Qed.

End Scan.

End ScanFacts.

(** ** The records of a well-formed tree *)

Module RecordFacts.

Lemma valid_all_solid (names : list string) :
  Forall (fun s => valid_name s = true) names -> Forall solid names.
Proof.
  intros H. eapply Forall_impl; [| exact H].
  intros s. apply PathFacts.valid_name_solid.
Qed.

Lemma full_path_descend (p : path) (x : found) :
  full_path p x = fold_left path_join (location x) p.
Proof. unfold full_path, location. rewrite fold_left_app. reflexivity. Qed.

Lemma resolve_full_path cwd (p : path) (x : found) :
  Forall (fun s => valid_name s = true) (location x) ->
  path_resolve cwd (full_path p x)
  = mkPath true (segs (path_resolve cwd p) ++ location x).
Proof.
  intros H. rewrite full_path_descend.
  apply PathFacts.resolve_descend, valid_all_solid, H.
Qed.

Lemma path_join_last (q : path) (name : string) :
  solid name -> exists l, segs (path_join q name) = l ++ [name].
Proof.
  intros H. unfold path_join, normalize. destruct q as [[|] l]; simpl.
  - exists (normalize_abs l). apply PathFacts.normalize_abs_snoc, H.
  - exists (normalize_rel l). apply PathFacts.normalize_rel_snoc, H.
Qed.

Lemma full_path_name (p : path) (x y : found) :
  valid_name (fname x) = true -> valid_name (fname y) = true ->
  full_path p x = full_path p y -> fname x = fname y.
Proof.
  intros Hx Hy Heq. unfold full_path in Heq.
  destruct (path_join_last (fold_left path_join (dirs x) p) (fname x)
              (PathFacts.valid_name_solid _ Hx)) as [lx Hlx].
  destruct (path_join_last (fold_left path_join (dirs y) p) (fname y)
              (PathFacts.valid_name_solid _ Hy)) as [ly Hly].
  rewrite Heq, Hly in Hlx. apply app_inj_tail in Hlx as [_ H]. congruence.
Qed.

Lemma location_name (x : found) :
  Forall (fun s => valid_name s = true) (location x) -> valid_name (fname x) = true.
Proof.
  unfold location. intros H. apply Forall_app in H as [_ H].
  inversion H. assumption.
Qed.

Section Scanner.

Variable cwd : list string.
Variable rootPath : path.

(** The fields of the record extracted for a file of the tree. *)
Lemma extract_fields (x : found) (m : ImageMetadata) :
  Forall (fun s => valid_name s = true) (location x) ->
  extract cwd rootPath (full_path rootPath x) (ffile x) = inr m ->
  im_path m = mkPath false (location x)
  /\ absolutePath m = path_resolve cwd (full_path rootPath x)
  /\ absolutePath m = mkPath true (segs (path_resolve cwd rootPath) ++ location x)
  /\ size m = Z.of_nat (length (content (ffile x)))
  /\ hash m = Sha256.sha256_hex (content (ffile x)).
Proof.
  intros Hvalid. rewrite FileFacts.extract_spec.
  unfold fs_stat. destruct (stat_fault (ffile x)); [discriminate |].
  destruct (calculateFileHash (ffile x)) as [e | d] eqn:Hhash; [discriminate |].
  intros H. injection H as <-. cbn [im_path absolutePath size hash st_size].
  rewrite (resolve_full_path cwd rootPath x Hvalid).
  repeat split.
  - apply PathFacts.relative_below.
    rewrite (resolve_full_path cwd rootPath x Hvalid). reflexivity.
  - apply calculateFileHash_digest, Hhash.
Qed.

Lemma extract_extractable (p : path) (f : file) :
  extractable f = true <-> exists m, extract cwd rootPath p f = inr m.
Proof.
  rewrite FileFacts.extract_spec. unfold extractable.
  destruct (fs_stat f); [split; [discriminate | intros [m H]; discriminate] |].
  destruct (calculateFileHash f); [split; [discriminate | intros [m H]; discriminate] |].
  split; [eauto | reflexivity].
Qed.

Variable options : ScanOptions.

Lemma in_outputs (x : found) (m : ImageMetadata) :
  In m (visit_results cwd rootPath options rootPath x) ->
  isValidImageFile (fname x) options = true
  /\ extract cwd rootPath (full_path rootPath x) (ffile x) = inr m
  /\ isValidSize m (maxSize options) = true.
Proof.
  rewrite FileFacts.visit_results_spec.
  destruct (isValidImageFile (fname x) options); [| contradiction].
  destruct (extract cwd rootPath (full_path rootPath x) (ffile x)) as [e | m'];
    [contradiction |].
  destruct (isValidSize m' (maxSize options)) eqn:Hsize; [| contradiction].
  intros [<- | []]. auto.
Qed.

Lemma in_events (x : found) (ev : io_event) :
  In ev (visit_trace cwd rootPath options rootPath x) ->
  isValidImageFile (fname x) options = true
  /\ (ev = Stat (full_path rootPath x) \/ ev = ReadStream (full_path rootPath x)
      \/ exists e, ev = ConsoleError (ProcessingFile (full_path rootPath x) e)).
Proof.
  rewrite FileFacts.visit_trace_spec.
  destruct (isValidImageFile (fname x) options); [| contradiction].
  destruct (fs_stat (ffile x)); [| destruct (calculateFileHash (ffile x))];
    simpl; intuition eauto.
Qed.

End Scanner.

Lemma files_deep_all deep dir x : In x (files deep dir) -> In x (files true dir).
Proof.
  destruct deep; [tauto |]. rewrite TreeFacts.files_shallow, filter_In. tauto.
Qed.

Lemma valid_not_dots (names : list string) :
  Forall (fun s => valid_name s = true) names -> ~ In ".." names.
Proof.
  intros H Hin. rewrite Forall_forall in H. specialize (H _ Hin). discriminate.
Qed.

End RecordFacts.

(** ** Lists *)

Module ListFacts.

Section Lists.

Context {A B : Type}.

Lemma filter_none (b : B -> bool) (l : list B) :
  (forall r, In r l -> b r = false) -> filter b l = [].
Proof.
  induction l as [| r l IH]; intros H; simpl; [reflexivity |].
  rewrite (H r (or_introl eq_refl)). apply IH. intros r' Hr'. apply H. right. exact Hr'.
Qed.

Lemma filter_flat_map (g : A -> list B) (P : B -> bool) (Q : A -> bool) (l : list A) :
  (forall x m, In x l -> In m (g x) -> P m = Q x) ->
  filter P (flat_map g l) = flat_map g (filter Q l).
Proof.
  induction l as [| x l IH]; intros H; simpl; [reflexivity |].
  rewrite filter_app, IH by (intros y m Hy; apply H; right; exact Hy).
  assert (forall m, In m (g x) -> P m = Q x) as Hx
    by (intros m; apply H; left; reflexivity).
  destruct (Q x).
  - simpl. f_equal. apply forallb_filter_id, forallb_forall. exact Hx.
  - rewrite filter_none by exact Hx. reflexivity.
Qed.

Lemma flat_map_some (g : A -> list B) (b : A -> bool) (l : list A) :
  flat_map (fun x => if b x then g x else []) l = flat_map g (filter b l).
Proof.
  induction l as [| x l IH]; simpl; [reflexivity |].
  destruct (b x); simpl; rewrite IH; reflexivity.
Qed.

Lemma length_flat_map_filter (g : A -> list B) (b : A -> bool) (l : list A) :
  (forall x, In x l -> length (g x) = if b x then 1%nat else 0%nat) ->
  length (flat_map g l) = length (filter b l).
Proof.
  induction l as [| x l IH]; intros H; simpl; [reflexivity |].
  rewrite length_app, IH by (intros y Hy; apply H; right; exact Hy).
  rewrite (H x (or_introl eq_refl)). destruct (b x); reflexivity.
Qed.

(** Among outputs keyed like their sources, a source with a unique key
    and a single output is the only one to produce that key. *)
Lemma unique_output {K : Type} (key : A -> K) (g : A -> list B) (b : B -> bool)
    (l : list A) (x : A) (m : B) :
  NoDup (map key l) -> In x l -> g x = [m] ->
  (forall y r, In y l -> In r (g y) -> (b r = true <-> key y = key x)) ->
  filter b (flat_map g l) = [m].
Proof.
  induction l as [| y l IH]; intros Hnd Hx Hgx Hkey; [contradiction |].
  cbn [map] in Hnd. inversion Hnd as [| ? ? Hfresh Hnd']; subst.
  cbn [flat_map]. rewrite filter_app.
  destruct Hx as [-> | Hx].
  - rewrite Hgx. cbn [filter].
    assert (b m = true) as ->.
    { apply (Hkey x m); [left; reflexivity | rewrite Hgx; left; reflexivity | reflexivity]. }
    rewrite filter_none; [reflexivity |].
    intros r Hr. apply in_flat_map in Hr as (y & Hy & Hr).
    destruct (b r) eqn:Hb; [| reflexivity].
    exfalso. apply Hfresh. apply (Hkey y r) in Hb;
      [| right; exact Hy | exact Hr].
    rewrite <- Hb. apply in_map, Hy.
  - rewrite (filter_none b (g y)).
    + apply IH; try assumption.
      intros y' r Hy'. apply Hkey. right. exact Hy'.
    + intros r Hr. destruct (b r) eqn:Hb; [| reflexivity].
      exfalso. apply Hfresh. apply (Hkey y r) in Hb;
        [| left; reflexivity | exact Hr].
      rewrite Hb. apply in_map, Hx.
Qed.

End Lists.

Lemma diagnostics_app t1 t2 : diagnostics (t1 ++ t2) = diagnostics t1 ++ diagnostics t2.
Proof. apply flat_map_app. Qed.

Lemma diagnostics_file_level t : diagnostics (file_level t) = diagnostics t.
Proof.
  induction t as [| ev t IH]; [reflexivity |].
  destruct ev; simpl; rewrite IH; reflexivity.
Qed.

Lemma diagnostics_flat_map {A} (g : A -> list io_event) (l : list A) :
  diagnostics (flat_map g l) = flat_map (fun x => diagnostics (g x)) l.
Proof.
  induction l as [| x l IH]; [reflexivity |].
  cbn [flat_map]. rewrite diagnostics_app, IH. reflexivity.
Qed.

End ListFacts.

(** * The claims *)

(** ** Root listing (C4) and subdirectory listing (C9) *)

(** [scanDirectory] is a [readdir] followed by the loop over what it
    returned. *)
Lemma scanDirectory_unfold cwd rootPath options dirPath dir :
  scanDirectory cwd rootPath options dirPath dir
  = (emit_io (Readdir dirPath) ;;
     entries <- await (fs_readdir (Some dir)) ;;
     forEntries cwd rootPath options (scanDirectory cwd rootPath options) dirPath entries).
Proof. destruct dir as [f | [e |] entries |]; reflexivity. Qed.

(** C4: when the root cannot be listed (it does not exist, is not a
    directory, or its listing is refused) [scan] fails with that error and
    returns no result; scanning an existing empty directory returns the
    empty sequence of records, with no error. *)
Theorem C4_root_listing (cwd : list string) (rootPath : path)
    (options : PartialScanOptions) :
  (forall root e,
      fs_readdir root = inl e ->
      scan cwd rootPath root options
      = (inl e, [Readdir rootPath; ConsoleError (ScanningDirectory rootPath e)]))
  /\ scan cwd rootPath (Some (NDir None [])) options = (inr [], [Readdir rootPath]).
Proof.
  split; [| reflexivity].
  intros [[f | [e' |] entries |] |] e H; simpl in H; inversion H; subst; reflexivity.
Qed.

Lemma C4_root_listing_witness :
  fs_readdir (Some (NFile (plain "x"))) = inl ENOTDIR
  /\ scan sample_cwd sample_root (Some (NFile (plain "x"))) no_options
     = (inl ENOTDIR,
        [Readdir sample_root; ConsoleError (ScanningDirectory sample_root ENOTDIR)]).
Proof.
  split; [reflexivity |].
  apply (proj1 (C4_root_listing sample_cwd sample_root no_options)).
  reflexivity.
Defined.

(** C9: in a recursive scan whose root was listed, if the listing of some
    subdirectory fails, the whole scan fails with the error of the first
    listing that fails: no records are returned, and the last thing the
    scan does is to log that error as a failure of the scan. *)
Theorem C9_subdirectory_listing_failure (cwd : list string) (rootPath : path)
    (entries : list (string * node)) (options : PartialScanOptions) (e0 : errno) :
  recursive (spread defaultOptions options) = true ->
  listing_fails true (NDir None entries) e0 ->
  exists e t,
    scan cwd rootPath (Some (NDir None entries)) options
    = (inl e, t ++ [ConsoleError (ScanningDirectory rootPath e)])
    /\ first_failure true (NDir None entries) = Some e
    /\ listing_fails true (NDir None entries) e.
Proof.
  intros Hdeep Hfail.
  apply TreeFacts.listing_fails_not_listable in Hfail.
  destruct (first_failure true (NDir None entries)) as [e |] eqn:Hfirst.
  - exists e. rewrite <- Hdeep in Hfirst.
    destruct (ScanFacts.scan_first_failure cwd rootPath options _ e Hfirst) as [t Hrun].
    exists t. rewrite Hdeep in Hfirst.
    split; [exact Hrun | split; [reflexivity |]].
    apply TreeFacts.first_failure_fails, Hfirst.
  - apply TreeFacts.first_failure_listable in Hfirst. congruence.
Qed.

Lemma guarded_tree_fails : listing_fails true guarded_tree EACCES.
Proof.
  apply (fails_below true _ "private" (NDir (Some EACCES) []));
    [reflexivity | simpl; tauto | reflexivity | constructor].
Qed.

Lemma C9_subdirectory_listing_failure_witness :
  exists e t,
    scan sample_cwd sample_root (Some guarded_tree) no_options
    = (inl e, t ++ [ConsoleError (ScanningDirectory sample_root e)])
    /\ first_failure true guarded_tree = Some e
    /\ listing_fails true guarded_tree e.
Proof.
  apply (C9_subdirectory_listing_failure sample_cwd sample_root _ no_options EACCES).
  - reflexivity.
  - exact guarded_tree_fails.
Defined.

(** ** Defaults (C6) *)

(** C6 as stated fails: an empty [fileTypes] is not replaced by the
    default set.  With an empty list the scan of the sample tree returns
    nothing, with the default list it returns records. *)
Lemma C6_empty_fileTypes_counterexample :
  fst (scan sample_cwd sample_root (Some sample_tree)
         (mkPartial None None (Some []) None)) = inr []
  /\ fst (scan sample_cwd sample_root (Some sample_tree)
            (mkPartial None None (Some []) None))
     <> fst (scan sample_cwd sample_root (Some sample_tree)
               (mkPartial None None (Some (fileTypes defaultOptions)) None)).
Proof. split; [vm_compute; reflexivity | vm_compute; discriminate]. Qed.

(** C6, amended: an omitted [fileTypes] stands for the built-in set of
    raster-image extensions, an omitted [recursive] for [true], and with
    [maxSize] omitted every size passes; a [fileTypes] that is given, the
    empty list included, is used as it is, and the empty list accepts no
    file. *)
Theorem C6_omitted_options_default (cwd : list string) (rootPath : path)
    (root : option node) (r : option bool) (z : option bool)
    (ft : option (list string)) (m : option Z) :
  scan cwd rootPath root (mkPartial r z None m)
  = scan cwd rootPath root
      (mkPartial r z (Some [".jpg"; ".jpeg"; ".png"; ".gif"; ".webp"; ".bmp"; ".tiff"]) m)
  /\ scan cwd rootPath root (mkPartial None z ft m)
     = scan cwd rootPath root (mkPartial (Some true) z ft m)
  /\ (forall metadata,
        isValidSize metadata (maxSize (spread defaultOptions (mkPartial r z ft None))) = true)
  /\ (forall given, fileTypes (spread defaultOptions (mkPartial r z (Some given) m)) = given)
  /\ (forall name,
        isValidImageFile name (spread defaultOptions (mkPartial r z (Some []) m)) = false).
Proof. repeat split. Qed.

(** ** The size bound (C2) *)

(** For a bound other than zero, [isValidSize] is the comparison. *)
Lemma isValidSize_bound (metadata : ImageMetadata) (bound : Z) :
  bound <> 0 -> isValidSize metadata (Some bound) = (size metadata <=? bound).
Proof. intros H. unfold isValidSize. destruct (Z.eqb_spec bound 0); congruence. Qed.

(** With a bound other than zero, no record of a scan is larger than the
    bound. *)
Lemma scan_respects_nonzero_bound (cwd : list string) (rootPath : path)
    (root : option node) (options : PartialScanOptions)
    (rs : list ImageMetadata) (t : list io_event) (bound : Z) :
  scan cwd rootPath root options = (inr rs, t) ->
  maxSize (spread defaultOptions options) = Some bound ->
  bound <> 0 ->
  forall m, In m rs -> size m <= bound.
Proof.
  intros Hscan Hmax Hnz m Hm.
  apply ScanFacts.scan_returned in Hscan as (dir & _ & _ & -> & _).
  apply in_flat_map in Hm as (x & _ & Hm).
  apply RecordFacts.in_outputs in Hm as (_ & _ & Hsize).
  rewrite Hmax, isValidSize_bound in Hsize by exact Hnz.
  apply Z.leb_le, Hsize.
Qed.

(** C2 at [maxSize = 0]: the ten-byte and twenty-byte pictures of the
    sample tree pass the type predicate and are larger than the bound, yet
    their records are returned. *)
Theorem C2_zero_bound_keeps_larger_files :
  match fst (scan sample_cwd sample_root (Some sample_tree)
               (mkPartial (Some false) None None (Some 0))) with
  | inr records => map size records = [10; 20]
  | inl _ => False
  end.
Proof. vm_compute. reflexivity. Qed.

(** ** Streaming (C10) *)







(** ** Paths of the records (C8) *)

(** C8: every record of a scan has a [path] relative to the scan root
    with no [..] segment: it is the chain of names that leads from the
    root to a file of the tree, and appending it to the resolved root gives
    the record's absolute path. *)
Theorem C8_paths_stay_under_root (cwd : list string) (rootPath : path) (dir : node)
    (options : PartialScanOptions) (rs : list ImageMetadata) (t : list io_event)
    (m : ImageMetadata) :
  well_formed dir = true ->
  scan cwd rootPath (Some dir) options = (inr rs, t) ->
  In m rs ->
  absolute (im_path m) = false
  /\ ~ In ".." (segs (im_path m))
  /\ absolutePath m
     = mkPath true (segs (path_resolve cwd rootPath) ++ segs (im_path m))
  /\ exists x, located true dir x /\ segs (im_path m) = location x.
Proof.
  intros Hwf Hscan Hm.
  apply ScanFacts.scan_returned in Hscan as (dir' & Hroot & _ & -> & _).
  injection Hroot as <-.
  apply in_flat_map in Hm as (x & Hx & Hm).
  pose proof (TreeFacts.files_valid _ dir Hwf x Hx) as Hvalid.
  apply RecordFacts.in_outputs in Hm as (_ & Hm & _).
  destruct (RecordFacts.extract_fields cwd rootPath x m Hvalid Hm)
    as (Hpath & _ & Habs & _).
  rewrite Hpath. cbn [absolute segs]. repeat split.
  - apply RecordFacts.valid_not_dots, Hvalid.
  - exact Habs.
  - exists x. split; [| reflexivity].
    apply TreeFacts.files_located. exact (RecordFacts.files_deep_all _ _ _ Hx).
Qed.

Lemma C8_paths_stay_under_root_witness :
  absolute (im_path gif_record) = false
  /\ ~ In ".." (segs (im_path gif_record))
  /\ absolutePath gif_record
     = mkPath true (segs (path_resolve sample_cwd sample_root) ++ segs (im_path gif_record))
  /\ exists x, located true sample_tree x /\ segs (im_path gif_record) = location x.
Proof.
  apply (C8_paths_stay_under_root sample_cwd sample_root sample_tree gif_options
           [gif_record]
           [Readdir sample_root; Readdir (mkPath true ["srv"; "images"; "d"]);
            Stat (full_path sample_root gif_file);
            ReadStream (full_path sample_root gif_file)]).
  - reflexivity.
  - vm_compute. reflexivity.
  - left. reflexivity.
Defined.

(** ** Files of other types (C5) *)

Lemma touches_spec (p : path) (ev : io_event) :
  touches p ev = true ->
  ev = Stat p \/ ev = ReadStream p \/ exists e, ev = ConsoleError (ProcessingFile p e).
Proof.
  unfold touches, path_eqb.
  destruct ev as [q | q | q | [q e | q e]]; try discriminate;
    destruct (path_eq_dec p q); try discriminate; subst; eauto.
Qed.

(** C5: a regular file of the tree whose lower-cased extension is not in
    [fileTypes] is passed over in silence.  No event of the run (no
    [stat], no read stream, no diagnostic) concerns its path, and when the
    scan returns, no record carries its absolute path. *)
Theorem C5_other_types_are_not_touched (cwd : list string) (rootPath : path)
    (dir : node) (options : PartialScanOptions) (x : found) :
  well_formed dir = true ->
  located true dir x ->
  isValidImageFile (fname x) (spread defaultOptions options) = false ->
  (forall ev, In ev (snd (scan cwd rootPath (Some dir) options)) ->
              touches (full_path rootPath x) ev = false)
  /\ (forall rs m, fst (scan cwd rootPath (Some dir) options) = inr rs ->
                   In m rs ->
                   absolutePath m <> path_resolve cwd (full_path rootPath x)).
Proof.
  intros Hwf Hx Hext. apply TreeFacts.files_located in Hx.
  pose proof (TreeFacts.files_valid true dir Hwf x Hx) as Hvx.
  destruct (ScanFacts.scan_walked cwd rootPath options dir)
    as (done & rest & t & Hall & Hlog & Hrun).
  assert (forall y, In y done ->
            isValidImageFile (fname y) (spread defaultOptions options) = true ->
            full_path rootPath y <> full_path rootPath x) as Hother.
  { intros y Hy Hvalid Heq.
    assert (In y (files true dir)) as Hy'.
    { apply (RecordFacts.files_deep_all (recursive (spread defaultOptions options))).
      rewrite Hall. apply in_or_app. left. exact Hy. }
    pose proof (TreeFacts.files_valid true dir Hwf y Hy') as Hvy.
    apply RecordFacts.full_path_name in Heq;
      try (apply RecordFacts.location_name; assumption).
    congruence. }
  assert (forall ev, In ev t -> touches (full_path rootPath x) ev = false) as Hquiet.
  { intros ev Hev. destruct (touches (full_path rootPath x) ev) eqn:Htouch;
      [| reflexivity].
    assert (In ev (file_level t)) as Hfile.
    { apply filter_In. split; [exact Hev |]. destruct ev; try reflexivity; discriminate. }
    rewrite Hlog in Hfile. apply in_flat_map in Hfile as (y & Hy & Hin).
    apply RecordFacts.in_events in Hin as (Hvalid & Hshape).
    apply touches_spec in Htouch. exfalso. apply (Hother y Hy Hvalid).
    destruct Hshape as [-> | [-> | [e ->]]];
      destruct Htouch as [H | [H | [e' H]]]; congruence. }
  split.
  - intros ev Hev.
    destruct Hrun as [(Hscan & _) | (e & Hscan & _)]; rewrite Hscan in Hev; simpl in Hev.
    + apply Hquiet, Hev.
    + apply in_app_or in Hev as [Hev | [<- | []]]; [apply Hquiet, Hev | reflexivity].
  - intros rs m Hres Hm Heq.
    destruct Hrun as [(Hscan & _) | (e & Hscan & _)]; rewrite Hscan in Hres;
      simpl in Hres; [| discriminate].
    injection Hres as <-.
    apply in_flat_map in Hm as (y & Hy & Hm).
    apply RecordFacts.in_outputs in Hm as (Hvalid & Hm & _).
    assert (In y (files true dir)) as Hy'.
    { apply (RecordFacts.files_deep_all (recursive (spread defaultOptions options))).
      rewrite Hall. apply in_or_app. left. exact Hy. }
    pose proof (TreeFacts.files_valid true dir Hwf y Hy') as Hvy.
    destruct (RecordFacts.extract_fields cwd rootPath y m Hvy Hm) as (_ & _ & Habs & _).
    rewrite Habs, (RecordFacts.resolve_full_path cwd rootPath x Hvx) in Heq.
    injection Heq as Heq. apply app_inv_head in Heq.
    unfold location in Heq. apply app_inj_tail in Heq as [_ Heq]. congruence.
Qed.

Lemma C5_other_types_are_not_touched_witness :
  (forall ev, In ev (snd (scan sample_cwd sample_root (Some sample_tree) no_options)) ->
              touches (mkPath true ["srv"; "images"; "c.txt"]) ev = false)
  /\ (forall rs m,
        fst (scan sample_cwd sample_root (Some sample_tree) no_options) = inr rs ->
        In m rs ->
        absolutePath m <> mkPath true ["srv"; "images"; "c.txt"]).
Proof.
  apply (C5_other_types_are_not_touched sample_cwd sample_root sample_tree no_options
           (mkFound [] "c.txt" (plain "01234"))).
  - reflexivity.
  - apply located_here. simpl. tauto.
  - reflexivity.
Defined.

(** ** Shallow and deep scans (C7) *)

(** C7 as stated fails: on a root that holds a picture and a directory
    that cannot be listed, the shallow scan returns the picture's record
    while the deep scan fails and has no records to filter. *)
Lemma C7_unlistable_subdirectory_counterexample :
  (exists m,
      fst (scan sample_cwd sample_root (Some guarded_tree)
             (mkPartial (Some false) None None None)) = inr [m])
  /\ fst (scan sample_cwd sample_root (Some guarded_tree)
            (mkPartial (Some true) None None None)) = inl EACCES.
Proof.
  split; [| vm_compute; reflexivity].
  eexists. vm_compute. reflexivity.
Qed.

(** C7, amended: whenever the scan with [recursive = true] returns, the
    scan of the same root with [recursive = false] and otherwise the same
    options returns exactly those of its records that sit directly in the
    root, in the same order. *)
Theorem C7_shallow_scan_is_deep_scan_filtered (cwd : list string) (rootPath : path)
    (dir : node) (z : option bool) (ft : option (list string)) (bound : option Z)
    (rs : list ImageMetadata) (t : list io_event) :
  well_formed dir = true ->
  scan cwd rootPath (Some dir) (mkPartial (Some true) z ft bound) = (inr rs, t) ->
  fst (scan cwd rootPath (Some dir) (mkPartial (Some false) z ft bound))
  = inr (filter top_level rs).
Proof.
  intros Hwf Hdeep.
  apply ScanFacts.scan_returned in Hdeep as (dir' & Hroot & Hok & -> & _).
  injection Hroot as <-. cbn [spread recursive override opt_recursive] in *.
  destruct (ScanFacts.scan_listable cwd rootPath (mkPartial (Some false) z ft bound) dir)
    as (t' & Hshallow & _).
  { cbn [spread recursive override opt_recursive]. apply TreeFacts.listable_shallow, Hok. }
  rewrite Hshallow. cbn [fst spread recursive override opt_recursive]. f_equal.
  rewrite TreeFacts.files_shallow.
  rewrite (ListFacts.filter_flat_map _ top_level (fun x => (depth x =? 0)%nat)).
  - apply flat_map_ext. intros x. apply FileFacts.visit_results_flag; reflexivity.
  - intros x m Hx Hm.
    pose proof (TreeFacts.files_valid true dir Hwf x Hx) as Hvalid.
    apply RecordFacts.in_outputs in Hm as (_ & Hm & _).
    destruct (RecordFacts.extract_fields cwd rootPath x m Hvalid Hm) as (Hpath & _).
    unfold top_level, depth, location. rewrite Hpath. cbn [segs].
    unfold location. rewrite length_app, Nat.add_1_r. reflexivity.
Qed.

Lemma C7_shallow_scan_is_deep_scan_filtered_witness :
  fst (scan sample_cwd sample_root (Some sample_tree) (mkPartial (Some false) None None None))
  = inr (filter top_level
           (match fst (scan sample_cwd sample_root (Some sample_tree)
                         (mkPartial (Some true) None None None)) with
            | inr rs => rs
            | inl _ => []
            end)).
Proof.
  apply (C7_shallow_scan_is_deep_scan_filtered sample_cwd sample_root sample_tree
           None None None _
           (snd (scan sample_cwd sample_root (Some sample_tree)
                   (mkPartial (Some true) None None None)))).
  - reflexivity.
  - vm_compute. reflexivity.
Defined.

(** ** Isolation of per-file failures (C3) *)

Section Isolation.

Variable cwd : list string.
Variable rootPath : path.
Variable options : PartialScanOptions.

Local Abbreviation merged := (spread defaultOptions options).

(** A scan that can list its directories returns the records of the
    accepted candidates and logs one diagnostic per unreadable candidate,
    both in the order of the walk. *)
Lemma scan_isolates (dir : node) :
  listable (recursive merged) dir = true ->
  exists rs t,
    scan cwd rootPath (Some dir) options = (inr rs, t)
    /\ rs = flat_map (fun x =>
               match extract cwd rootPath (full_path rootPath x) (ffile x) with
               | inr m => if isValidSize m (maxSize merged) then [m] else []
               | inl _ => []
               end) (candidates merged dir)
    /\ diagnostics t
       = flat_map (fun x =>
            match extract cwd rootPath (full_path rootPath x) (ffile x) with
            | inl e => [ProcessingFile (full_path rootPath x) e]
            | inr _ => []
            end) (candidates merged dir).
Proof.
  intros Hok.
  destruct (ScanFacts.scan_listable cwd rootPath options dir Hok) as (t & Hrun & Hlog).
  eexists; exists t. split; [exact Hrun |]. unfold candidates. split.
  - rewrite <- ListFacts.flat_map_some. apply flat_map_ext. intros x.
    apply FileFacts.visit_results_spec.
  - rewrite <- ListFacts.diagnostics_file_level, Hlog, ListFacts.diagnostics_flat_map.
    rewrite <- ListFacts.flat_map_some. apply flat_map_ext. intros x.
    apply FileFacts.visit_diagnostics.
Qed.

End Isolation.



(** At the bound zero the two differ: in the tree below neither readable
    picture is within the bound, and the scan returns both (see C2). *)
Example isolation_at_zero_bound :
  filter (fun x => negb (unreadable sample_cwd sample_root x)
                   && within_bound (Some 0) x)
         (candidates (spread defaultOptions (mkPartial None None None (Some 0)))
                     mixed_tree) = []
  /\ map size
       (records_of
          (fst (scan sample_cwd sample_root (Some mixed_tree)
                  (mkPartial None None None (Some 0)))))
     = [10; 15].
Proof. vm_compute. split; reflexivity. Qed.



(** ** Accepted files and their hash (C1) *)

(** C1 as stated fails: a picture with a matching extension and no size
    bound set, but which cannot be opened, has no record. *)
Lemma C1_unreadable_file_counterexample :
  located true locked_tree (mkFound [] "a.jpg" locked)
  /\ isValidImageFile "a.jpg" (spread defaultOptions no_options) = true
  /\ maxSize (spread defaultOptions no_options) = None
  /\ fst (scan sample_cwd sample_root (Some locked_tree) no_options) = inr [].
Proof.
  split; [apply located_here; left; reflexivity |]. repeat split.
Qed.

(** C1, amended: whenever the scan returns, every file it reaches whose
    lower-cased extension is in [fileTypes], whose size is within
    [maxSize] when one is set, and on which metadata extraction succeeds,
    has exactly one record in the output: the record's [hash] is the
    lower-case hexadecimal SHA-256 digest of the file's content, its
    [size] the length of the content and its [path] the file's location
    under the root. *)
Theorem C1_accepted_file_recorded_once (cwd : list string) (rootPath : path)
    (dir : node) (options : PartialScanOptions) (rs : list ImageMetadata)
    (t : list io_event) (x : found) :
  well_formed dir = true ->
  scan cwd rootPath (Some dir) options = (inr rs, t) ->
  located (recursive (spread defaultOptions options)) dir x ->
  isValidImageFile (fname x) (spread defaultOptions options) = true ->
  (forall bound, maxSize (spread defaultOptions options) = Some bound ->
                 Z.of_nat (length (content (ffile x))) <= bound) ->
  extractable (ffile x) = true ->
  exists m,
    filter (fun r => path_eqb (absolutePath r) (path_resolve cwd (full_path rootPath x))) rs
    = [m]
    /\ hash m = Sha256.sha256_hex (content (ffile x))
    /\ size m = Z.of_nat (length (content (ffile x)))
    /\ im_path m = mkPath false (location x).
Proof.
  intros Hwf Hscan Hx Hext Hsize Hread. apply TreeFacts.files_located in Hx.
  apply ScanFacts.scan_returned in Hscan as (dir' & Hroot & _ & -> & _).
  injection Hroot as <-.
  pose proof (TreeFacts.files_valid _ dir Hwf x Hx) as Hvalid.
  apply (RecordFacts.extract_extractable cwd rootPath (full_path rootPath x)) in Hread
    as [m Hm].
  destruct (RecordFacts.extract_fields cwd rootPath x m Hvalid Hm)
    as (Hpath & Habs & _ & Hlen & Hhash).
  exists m. split; [| auto].
  apply (ListFacts.unique_output location) with (x := x).
  - apply TreeFacts.files_NoDup, Hwf.
  - exact Hx.
  - rewrite FileFacts.visit_results_spec, Hext, Hm.
    assert (isValidSize m (maxSize (spread defaultOptions options)) = true) as ->;
      [| reflexivity].
    unfold isValidSize.
    destruct (maxSize (spread defaultOptions options)) as [bound |]; [| reflexivity].
    destruct (bound =? 0); [reflexivity |].
    apply Z.leb_le. rewrite Hlen. apply Hsize. reflexivity.
  - intros y r Hy Hr.
    pose proof (TreeFacts.files_valid _ dir Hwf y Hy) as Hvy.
    apply RecordFacts.in_outputs in Hr as (_ & Hr & _).
    destruct (RecordFacts.extract_fields cwd rootPath y r Hvy Hr) as (_ & _ & Hry & _).
    rewrite Hry, (RecordFacts.resolve_full_path cwd rootPath x Hvalid).
    unfold path_eqb.
    destruct (path_eq_dec _ _) as [Heq | Hne]; split; intros H;
      try reflexivity; try discriminate.
    + injection Heq as Heq. apply app_inv_head in Heq. exact Heq.
    + exfalso. apply Hne. rewrite H. reflexivity.
Qed.

Lemma C1_accepted_file_recorded_once_witness :
  exists m,
    filter (fun r => path_eqb (absolutePath r)
                       (path_resolve sample_cwd (full_path sample_root gif_file)))
           [gif_record]
    = [m]
    /\ hash m = Sha256.sha256_hex (content (ffile gif_file))
    /\ size m = Z.of_nat (length (content (ffile gif_file)))
    /\ im_path m = mkPath false (location gif_file).
Proof.
  apply (C1_accepted_file_recorded_once sample_cwd sample_root sample_tree gif_options
           [gif_record]
           [Readdir sample_root; Readdir (mkPath true ["srv"; "images"; "d"]);
            Stat (full_path sample_root gif_file);
            ReadStream (full_path sample_root gif_file)]
           gif_file).
  - reflexivity.
  - vm_compute. reflexivity.
  - apply (located_below true None _ "d"
             (NDir None [("e.gif", NFile (plain "012345678901234"))])
             (mkFound [] "e.gif" (plain "012345678901234")));
      [reflexivity | simpl; tauto | reflexivity |].
    apply located_here. simpl. tauto.
  - reflexivity.
  - intros bound H. discriminate H.
  - vm_compute. reflexivity.
Defined.

(** * Further properties of the scanner *)

Module MoreFacts.

Lemma extract_times cwd rootPath (p : path) (f : file) (m : ImageMetadata) :
  extract cwd rootPath p f = inr m ->
  created m = birthtime f /\ modified m = mtime f /\ dimensions m = None
  /\ 0 <= size m.
Proof.
  rewrite FileFacts.extract_spec. unfold fs_stat.
  destruct (stat_fault f); [discriminate |].
  destruct (calculateFileHash f); [discriminate |].
  intros H. injection H as <-. cbn. repeat split. lia.
Qed.

Lemma in_files_candidate (o : ScanOptions) (dir : node) (x : found) :
  In x (candidates o dir)
  <-> In x (files (recursive o) dir) /\ isValidImageFile (fname x) o = true.
Proof. unfold candidates. apply filter_In. Qed.

(** Outputs that are empty or single, keyed injectively by their source,
    carry no key twice. *)
Lemma NoDup_outputs {A B K : Type} (key : A -> K) (g : A -> list B)
    (keyr : B -> K) (l : list A) :
  NoDup (map key l) ->
  (forall x, In x l -> g x = [] \/ exists m, g x = [m] /\ keyr m = key x) ->
  NoDup (map keyr (flat_map g l)).
Proof.
  induction l as [| x l IH]; intros Hnd Hg; [constructor |].
  cbn [map] in Hnd. inversion Hnd as [| ? ? Hfresh Hnd']; subst.
  cbn [flat_map]. rewrite map_app.
  assert (NoDup (map keyr (flat_map g l))) as Hrest
    by (apply IH; [exact Hnd' | intros y Hy; apply Hg; right; exact Hy]).
  destruct (Hg x (or_introl eq_refl)) as [-> | (m & -> & Hm)]; [exact Hrest |].
  cbn [map app]. constructor; [| exact Hrest].
  intros Hin. apply in_map_iff in Hin as (m' & Hkey & Hin).
  apply in_flat_map in Hin as (y & Hy & Hin).
  destruct (Hg y (or_intror Hy)) as [Hnil | (m'' & Hone & Hm'')];
    rewrite ?Hnil, ?Hone in Hin; [contradiction |].
  destruct Hin as [<- | []].
  apply Hfresh. apply in_map_iff. exists y. split; [congruence | exact Hy].
Qed.

End MoreFacts.

(** X1: every record of a scan that returns is the record of a regular
    file the walk reaches: a file whose name passes the type predicate,
    on which [stat] and the hash succeed and which the size predicate
    accepts.  The record's [path] is the file's location under the root,
    its [size] the length of the content, its [hash] the SHA-256 digest
    of the content in hexadecimal, its dates those of the file, and it
    has no [dimensions]. *)
Theorem X1_records_are_sound (cwd : list string) (rootPath : path) (dir : node)
    (options : PartialScanOptions) (rs : list ImageMetadata) (t : list io_event)
    (m : ImageMetadata) :
  well_formed dir = true ->
  scan cwd rootPath (Some dir) options = (inr rs, t) ->
  In m rs ->
  exists x,
    located (recursive (spread defaultOptions options)) dir x
    /\ isValidImageFile (fname x) (spread defaultOptions options) = true
    /\ extractable (ffile x) = true
    /\ isValidSize m (maxSize (spread defaultOptions options)) = true
    /\ im_path m = mkPath false (location x)
    /\ size m = Z.of_nat (length (content (ffile x)))
    /\ hash m = Sha256.sha256_hex (content (ffile x))
    /\ created m = birthtime (ffile x)
    /\ modified m = mtime (ffile x)
    /\ dimensions m = None.
Proof.
  intros Hwf Hscan Hm.
  apply ScanFacts.scan_returned in Hscan as (dir' & Hroot & _ & -> & _).
  injection Hroot as <-.
  apply in_flat_map in Hm as (x & Hx & Hm).
  pose proof (TreeFacts.files_valid _ dir Hwf x Hx) as Hvalid.
  apply RecordFacts.in_outputs in Hm as (Hext & Hm & Hsize).
  destruct (RecordFacts.extract_fields cwd rootPath x m Hvalid Hm)
    as (Hpath & _ & _ & Hlen & Hhash).
  destruct (MoreFacts.extract_times cwd rootPath _ _ m Hm) as (Hc & Hmod & Hdim & _).
  exists x. repeat split; try assumption.
  - apply TreeFacts.files_located, Hx.
  - apply (RecordFacts.extract_extractable cwd rootPath (full_path rootPath x)).
    exists m. exact Hm.
Qed.

Lemma X1_records_are_sound_witness :
  exists x,
    located (recursive (spread defaultOptions gif_options)) sample_tree x
    /\ isValidImageFile (fname x) (spread defaultOptions gif_options) = true
    /\ extractable (ffile x) = true
    /\ isValidSize gif_record (maxSize (spread defaultOptions gif_options)) = true
    /\ im_path gif_record = mkPath false (location x)
    /\ size gif_record = Z.of_nat (length (content (ffile x)))
    /\ hash gif_record = Sha256.sha256_hex (content (ffile x))
    /\ created gif_record = birthtime (ffile x)
    /\ modified gif_record = mtime (ffile x)
    /\ dimensions gif_record = None.
Proof.
  apply (X1_records_are_sound sample_cwd sample_root sample_tree gif_options
           [gif_record]
           [Readdir sample_root; Readdir (mkPath true ["srv"; "images"; "d"]);
            Stat (full_path sample_root gif_file);
            ReadStream (full_path sample_root gif_file)]).
  - reflexivity.
  - vm_compute. reflexivity.
  - left. reflexivity.
Defined.

(** X2: no two records of a scan carry the same absolute path. *)
Theorem X2_records_have_distinct_paths (cwd : list string) (rootPath : path)
    (dir : node) (options : PartialScanOptions) (rs : list ImageMetadata)
    (t : list io_event) :
  well_formed dir = true ->
  scan cwd rootPath (Some dir) options = (inr rs, t) ->
  NoDup (map absolutePath rs).
Proof.
  intros Hwf Hscan.
  apply ScanFacts.scan_returned in Hscan as (dir' & Hroot & _ & -> & _).
  injection Hroot as <-.
  apply (MoreFacts.NoDup_outputs
           (fun x => mkPath true (segs (path_resolve cwd rootPath) ++ location x))).
  - rewrite <- (map_map location
                  (fun l => mkPath true (segs (path_resolve cwd rootPath) ++ l))).
    apply Injective_map_NoDup; [| apply TreeFacts.files_NoDup, Hwf].
    intros a b Hab. injection Hab as Hab. exact (app_inv_head _ _ _ Hab).
  - intros x Hx.
    pose proof (TreeFacts.files_valid _ dir Hwf x Hx) as Hvalid.
    rewrite FileFacts.visit_results_spec.
    destruct (isValidImageFile (fname x) _); [| left; reflexivity].
    destruct (extract cwd rootPath (full_path rootPath x) (ffile x)) as [e | m] eqn:Hm;
      [left; reflexivity |].
    destruct (isValidSize m _); [| left; reflexivity].
    right. exists m. split; [reflexivity |].
    apply (RecordFacts.extract_fields cwd rootPath x m Hvalid Hm).
Qed.

Lemma X2_records_have_distinct_paths_witness :
  NoDup (map absolutePath
           (records_of (fst (scan sample_cwd sample_root (Some sample_tree) no_options)))).
Proof.
  apply (X2_records_have_distinct_paths sample_cwd sample_root sample_tree no_options
           _ (snd (scan sample_cwd sample_root (Some sample_tree) no_options))).
  - reflexivity.
  - vm_compute. reflexivity.
Defined.

(** X3: the records come in the order of the walk: entries in the order
    of the listing, a subdirectory's files where the subdirectory stands.
    The paths of the records are the locations of the accepted candidates,
    in that order. *)
Theorem X3_records_follow_the_walk (cwd : list string) (rootPath : path)
    (dir : node) (options : PartialScanOptions) (rs : list ImageMetadata)
    (t : list io_event) :
  well_formed dir = true ->
  scan cwd rootPath (Some dir) options = (inr rs, t) ->
  map (fun m => segs (im_path m)) rs
  = map location
      (filter (accepted cwd rootPath (spread defaultOptions options))
              (candidates (spread defaultOptions options) dir)).
Proof.
  intros Hwf Hscan.
  apply ScanFacts.scan_returned in Hscan as (dir' & Hroot & _ & -> & _).
  injection Hroot as <-. unfold candidates.
  pose proof (TreeFacts.files_valid (recursive (spread defaultOptions options)) dir Hwf)
    as Hvalid.
  induction (files (recursive (spread defaultOptions options)) dir) as [| x l IH];
    [reflexivity |].
  cbn [flat_map filter]. rewrite map_app, IH
    by (intros y Hy; apply Hvalid; right; exact Hy).
  rewrite FileFacts.visit_results_spec.
  destruct (isValidImageFile (fname x) _); [| reflexivity].
  cbn [filter]. unfold accepted at 2.
  destruct (extract cwd rootPath (full_path rootPath x) (ffile x)) as [e | m] eqn:Hm;
    [reflexivity |].
  destruct (isValidSize m _); [| reflexivity].
  destruct (RecordFacts.extract_fields cwd rootPath x m
              (Hvalid x (or_introl eq_refl)) Hm) as (Hpath & _).
  cbn [map app]. rewrite Hpath. reflexivity.
Qed.

Lemma X3_records_follow_the_walk_witness :
  map (fun m => segs (im_path m))
      (records_of (fst (scan sample_cwd sample_root (Some sample_tree) no_options)))
  = map location
      (filter (accepted sample_cwd sample_root (spread defaultOptions no_options))
              (candidates (spread defaultOptions no_options) sample_tree)).
Proof.
  apply (X3_records_follow_the_walk sample_cwd sample_root sample_tree no_options
           _ (snd (scan sample_cwd sample_root (Some sample_tree) no_options))).
  - reflexivity.
  - vm_compute. reflexivity.
Defined.

(** X4: for a root path that names something and options in which every
    property is omitted or holds a value of its declared type, [scan]
    returns exactly when the root is a directory and every listing the
    walk makes succeeds, and it fails otherwise with the error of the
    first listing that fails in the order of the walk.  A failing [stat]
    or read never makes it fail. *)
Theorem X4_scan_fails_only_on_listings (cwd : list string) (rootPath : path)
    (root : node) (options : PartialScanOptions) :
  ((exists rs, fst (scan cwd rootPath (Some root) options) = inr rs)
   <-> listable (recursive (spread defaultOptions options)) root = true)
  /\ (forall e,
        fst (scan cwd rootPath (Some root) options) = inl e
        <-> first_failure (recursive (spread defaultOptions options)) root = Some e).
Proof.
  destruct (first_failure (recursive (spread defaultOptions options)) root)
    as [e0 |] eqn:Hfirst.
  - destruct (ScanFacts.scan_first_failure cwd rootPath options root e0 Hfirst)
      as [t Hrun].
    rewrite Hrun. cbn [fst]. split.
    + split; [intros [rs H]; discriminate |].
      intros Hok. apply TreeFacts.first_failure_listable in Hok. congruence.
    + intros e. split; intros H; congruence.
  - pose proof (proj1 (TreeFacts.first_failure_listable _ root) Hfirst) as Hok.
    destruct (ScanFacts.scan_listable cwd rootPath options root Hok) as (t & Hrun & _).
    rewrite Hrun. cbn [fst]. split.
    + split; [intros _; exact Hok | intros _; eexists; reflexivity].
    + intros e. split; discriminate.
Qed.

Module TraceFacts.

Lemma listed_paths_app t1 t2 : listed_paths (t1 ++ t2) = listed_paths t1 ++ listed_paths t2.
Proof. apply flat_map_app. Qed.

Lemma listed_paths_file_level t : listed_paths (file_level t) = [].
Proof.
  induction t as [| ev t IH]; [reflexivity |].
  destruct ev; simpl; exact IH.
Qed.

Lemma stat_paths_file_level t : stat_paths (file_level t) = stat_paths t.
Proof.
  induction t as [| ev t IH]; [reflexivity |].
  destruct ev; simpl; rewrite IH; reflexivity.
Qed.

Lemma read_paths_file_level t : read_paths (file_level t) = read_paths t.
Proof.
  induction t as [| ev t IH]; [reflexivity |].
  destruct ev; simpl; rewrite IH; reflexivity.
Qed.

Lemma flat_map_flat_map {A B C} (f : B -> list C) (g : A -> list B) (l : list A) :
  flat_map f (flat_map g l) = flat_map (fun x => flat_map f (g x)) l.
Proof.
  induction l as [| x l IH]; [reflexivity |].
  cbn [flat_map]. rewrite flat_map_app, IH. reflexivity.
Qed.

Lemma flat_map_single {A B} (k : A -> B) (b : A -> bool) (l : list A) :
  flat_map (fun x => if b x then [k x] else []) l = map k (filter b l).
Proof.
  induction l as [| x l IH]; [reflexivity |].
  cbn [flat_map filter]. rewrite IH. destruct (b x); reflexivity.
Qed.

Lemma filter_filter {A} (a b : A -> bool) (l : list A) :
  filter b (filter a l) = filter (fun x => a x && b x) l.
Proof.
  induction l as [| x l IH]; [reflexivity |].
  cbn [filter]. destruct (a x); cbn [filter andb]; rewrite IH; reflexivity.
Qed.

Section Scanner.

Variable cwd : list string.
Variable rootPath : path.
Variable options : ScanOptions.

(** A walk that does not enter directories makes no listing of its own
    and cannot fail. *)
Lemma shallow_loop (recur : path -> node -> M unit) :
  recursive options = false ->
  forall entries p h,
  exists R T,
    forEntries cwd rootPath options recur p entries h = (inr tt, append h R T)
    /\ listed_paths T = [].
Proof.
  intros Hflat. induction entries as [| [name entry] es IH]; intros p h.
  - exists [], []. cbn. rewrite Frame.append_nil. auto.
  - cbn [forEntries]. rewrite Hflat, andb_false_r.
    destruct (isFile entry && isValidImageFile name options) eqn:Hfile;
      [| apply IH].
    destruct (file_of entry) as [f |]; [| apply IH].
    apply andb_prop in Hfile as [_ Hvalid].
    pose proof (Frame.visit_run cwd rootPath options p (mkFound [] name f) h) as Hrun.
    unfold visit in Hrun. cbn [fname ffile] in Hrun. rewrite Hvalid in Hrun.
    unfold full_path in Hrun. cbn [dirs fname fold_left] in Hrun.
    unfold bind. rewrite Hrun.
    destruct (IH p (append h
                (visit_results cwd rootPath options p (mkFound [] name f))
                (visit_trace cwd rootPath options p (mkFound [] name f))))
      as (R & T & Hloop & Hlisted).
    rewrite Hloop, Frame.append_append.
    eexists; eexists. split; [reflexivity |].
    rewrite listed_paths_app, Hlisted, app_nil_r.
    rewrite <- (Walk.file_level_events cwd rootPath options).
    apply listed_paths_file_level.
Qed.

(** Options that agree on [recursive], [fileTypes] and [maxSize] give the
    same walk. *)
Lemma scanDirectory_same (o' : ScanOptions) :
  recursive options = recursive o' ->
  fileTypes options = fileTypes o' ->
  maxSize options = maxSize o' ->
  forall dir p h,
    scanDirectory cwd rootPath options p dir h = scanDirectory cwd rootPath o' p dir h.
Proof.
  intros Hrec Hft Hmax.
  induction dir as [f | fault entries IH |] using node_tree_ind; intros p h;
    cbn [scanDirectory]; rewrite !Walk.emit_io_then; try reflexivity.
  destruct fault as [e |]; [reflexivity |].
  generalize (append h [] [Readdir p]). clear h.
  induction entries as [| [name entry] es IHes]; intros h; [reflexivity |].
  inversion IH as [| ? ? IHentry IHrest]; subst. cbn [snd] in IHentry.
  specialize (IHes IHrest).
  cbn [forEntries]. unfold isValidImageFile, processFile.
  rewrite <- Hrec, <- Hft, <- Hmax.
  destruct (isDirectory entry && recursive options).
  - unfold bind. rewrite IHentry.
    destruct (scanDirectory cwd rootPath o' (path_join p name) entry h)
      as [[e | []] h']; [reflexivity | apply IHes].
  - destruct (isFile entry && _); [| apply IHes].
    destruct (file_of entry) as [f |]; [| apply IHes].
    unfold bind at 1 3.
    match goal with |- context [try_catch ?m ?k h] => destruct (try_catch m k h) as [[e | []] h'] end;
      [reflexivity | apply IHes].
Qed.

End Scanner.

End TraceFacts.

(** X5: with [recursive = false], and [fileTypes] omitted or a list of
    strings, a scan of a directory that can be listed returns, whatever
    its subdirectories are, and the root is the only directory it
    lists. *)
Theorem X5_shallow_scan_lists_only_the_root (cwd : list string) (rootPath : path)
    (entries : list (string * node)) (options : PartialScanOptions) :
  recursive (spread defaultOptions options) = false ->
  exists rs t,
    scan cwd rootPath (Some (NDir None entries)) options = (inr rs, Readdir rootPath :: t)
    /\ listed_paths t = [].
Proof.
  intros Hflat.
  destruct (TraceFacts.shallow_loop cwd rootPath (spread defaultOptions options)
              (scanDirectory cwd rootPath (spread defaultOptions options)) Hflat
              entries rootPath (append empty_heap [] [Readdir rootPath]))
    as (R & T & Hloop & Hlisted).
  exists R, T. split; [| exact Hlisted].
  unfold scan, try_catch. unfold bind at 1. cbn [scanDirectory].
  fold empty_heap. rewrite Walk.emit_io_then, Hloop. reflexivity.
Qed.

Lemma X5_shallow_scan_lists_only_the_root_witness :
  exists rs t,
    scan sample_cwd sample_root (Some guarded_tree) (mkPartial (Some false) None None None)
    = (inr rs, Readdir sample_root :: t)
    /\ listed_paths t = [].
Proof.
  apply (X5_shallow_scan_lists_only_the_root sample_cwd sample_root
           [("a.jpg", NFile (plain "0123456789")); ("private", NDir (Some EACCES) [])]
           (mkPartial (Some false) None None None)).
  reflexivity.
Defined.

(** X6: in a scan whose listings succeed, [fs.stat] is called once on
    every regular file that passes the type predicate, in the order of the
    walk, and a read stream is opened on each of them whose [stat]
    succeeded, whatever [maxSize] is: a file over the bound is still read
    and hashed before it is dropped. *)
Theorem X6_every_candidate_is_read (cwd : list string) (rootPath : path) (dir : node)
    (options : PartialScanOptions) :
  listable (recursive (spread defaultOptions options)) dir = true ->
  stat_paths (snd (scan cwd rootPath (Some dir) options))
  = map (full_path rootPath) (candidates (spread defaultOptions options) dir)
  /\ read_paths (snd (scan cwd rootPath (Some dir) options))
     = map (full_path rootPath)
         (filter stat_ok (candidates (spread defaultOptions options) dir)).
Proof.
  intros Hok.
  destruct (ScanFacts.scan_listable cwd rootPath options dir Hok) as (t & Hrun & Hlog).
  rewrite Hrun. cbn [snd]. unfold candidates. split.
  - rewrite <- TraceFacts.stat_paths_file_level, Hlog.
    unfold stat_paths at 1. rewrite TraceFacts.flat_map_flat_map.
    rewrite <- TraceFacts.flat_map_single. apply flat_map_ext. intros x.
    rewrite FileFacts.visit_trace_spec.
    destruct (isValidImageFile (fname x) _); [| reflexivity].
    destruct (fs_stat (ffile x)); [reflexivity |].
    destruct (calculateFileHash (ffile x)); reflexivity.
  - rewrite <- TraceFacts.read_paths_file_level, Hlog.
    unfold read_paths at 1. rewrite TraceFacts.flat_map_flat_map.
    rewrite TraceFacts.filter_filter, <- TraceFacts.flat_map_single.
    apply flat_map_ext. intros x.
    rewrite FileFacts.visit_trace_spec. unfold stat_ok.
    destruct (isValidImageFile (fname x) _); [| reflexivity].
    destruct (fs_stat (ffile x)); [reflexivity |].
    destruct (calculateFileHash (ffile x)); reflexivity.
Qed.

Lemma X6_every_candidate_is_read_witness :
  stat_paths (snd (scan sample_cwd sample_root (Some mixed_tree)
                     (mkPartial None None None (Some 1))))
  = map (full_path sample_root)
      (candidates (spread defaultOptions (mkPartial None None None (Some 1))) mixed_tree)
  /\ read_paths (snd (scan sample_cwd sample_root (Some mixed_tree)
                        (mkPartial None None None (Some 1))))
     = map (full_path sample_root)
         (filter stat_ok
            (candidates (spread defaultOptions (mkPartial None None None (Some 1)))
                        mixed_tree)).
Proof.
  apply (X6_every_candidate_is_read sample_cwd sample_root mixed_tree
           (mkPartial None None None (Some 1))).
  reflexivity.
Defined.

(** X7: the option [includeZips] is never read: two scans whose options
    differ only in it do the same and return the same. *)
Theorem X7_includeZips_is_ignored (cwd : list string) (rootPath : path)
    (root : option node) (r : option bool) (z z' : option bool)
    (ft : option (list string)) (m : option Z) :
  scan cwd rootPath root (mkPartial r z ft m)
  = scan cwd rootPath root (mkPartial r z' ft m).
Proof.
  unfold scan, try_catch. unfold bind at 1 4.
  destruct root as [dir |]; [| reflexivity].
  rewrite (TraceFacts.scanDirectory_same cwd rootPath
             (spread defaultOptions (mkPartial r z ft m))
             (spread defaultOptions (mkPartial r z' ft m)));
    reflexivity.
Qed.

(** X8: with a bound other than zero, the size of every record of a scan
    lies between zero and the bound; with a negative bound the scan
    returns no record. *)
Theorem X8_sizes_within_nonzero_bound (cwd : list string) (rootPath : path)
    (root : option node) (options : PartialScanOptions)
    (rs : list ImageMetadata) (t : list io_event) (bound : Z) :
  scan cwd rootPath root options = (inr rs, t) ->
  maxSize (spread defaultOptions options) = Some bound ->
  bound <> 0 ->
  (forall m, In m rs -> 0 <= size m <= bound)
  /\ (bound < 0 -> rs = []).
Proof.
  intros Hscan Hmax Hnz.
  apply ScanFacts.scan_returned in Hscan as (dir & _ & _ & -> & _).
  assert (forall m,
            In m (flat_map (visit_results cwd rootPath (spread defaultOptions options)
                              rootPath)
                    (files (recursive (spread defaultOptions options)) dir)) ->
            0 <= size m <= bound) as Hall.
  { intros m Hm. apply in_flat_map in Hm as (x & _ & Hm).
    apply RecordFacts.in_outputs in Hm as (_ & Hm & Hsize).
    apply MoreFacts.extract_times in Hm as (_ & _ & _ & Hpos).
    rewrite Hmax in Hsize. unfold isValidSize in Hsize.
    destruct (Z.eqb_spec bound 0); [contradiction |].
    apply Z.leb_le in Hsize. lia. }
  split; [exact Hall |].
  intros Hneg.
  destruct (flat_map _ _) as [| m l]; [reflexivity |].
  specialize (Hall m (or_introl eq_refl)). lia.
Qed.

Lemma X8_sizes_within_nonzero_bound_witness :
  (forall m,
      In m (records_of (fst (scan sample_cwd sample_root (Some sample_tree)
                               (mkPartial None None None (Some 18))))) ->
      0 <= size m <= 18)
  /\ (18 < 0 ->
      records_of (fst (scan sample_cwd sample_root (Some sample_tree)
                         (mkPartial None None None (Some 18)))) = []).
Proof.
  apply (X8_sizes_within_nonzero_bound sample_cwd sample_root (Some sample_tree)
           (mkPartial None None None (Some 18)) _
           (snd (scan sample_cwd sample_root (Some sample_tree)
                   (mkPartial None None None (Some 18))))).
  - vm_compute. reflexivity.
  - reflexivity.
  - discriminate.
Defined.

Module PortableFacts.

Lemma relative_location cwd rootPath (x : found) :
  Forall (fun s => valid_name s = true) (location x) ->
  path_relative cwd rootPath (full_path rootPath x) = mkPath false (location x).
Proof.
  intros Hvalid. apply PathFacts.relative_below.
  rewrite (RecordFacts.resolve_full_path cwd rootPath x Hvalid). reflexivity.
Qed.

(** Seen without its absolute path, the record of a file does not depend
    on where the root is. *)
Lemma outputs_portable cwd1 root1 cwd2 root2 (o : ScanOptions) (x : found) :
  Forall (fun s => valid_name s = true) (location x) ->
  map portable (visit_results cwd1 root1 o root1 x)
  = map portable (visit_results cwd2 root2 o root2 x).
Proof.
  intros Hvalid. rewrite !FileFacts.visit_results_spec, !FileFacts.extract_spec.
  destruct (isValidImageFile (fname x) o); [| reflexivity].
  destruct (fs_stat (ffile x)) as [e | stats]; [reflexivity |].
  destruct (calculateFileHash (ffile x)) as [e | digest]; [reflexivity |].
  unfold isValidSize. cbn [size].
  rewrite !relative_location by exact Hvalid.
  destruct (maxSize o) as [bound |]; [| reflexivity].
  destruct (bound =? 0); [reflexivity |].
  destruct (st_size stats <=? bound); reflexivity.
Qed.

Lemma partition_length {A} (a u v : A -> bool) (l : list A) :
  (forall x, In x l ->
     (a x = true /\ u x = false /\ v x = false)
     \/ (a x = false /\ u x = true /\ v x = false)
     \/ (a x = false /\ u x = false /\ v x = true)) ->
  length l = (length (filter a l) + length (filter u l) + length (filter v l))%nat.
Proof.
  induction l as [| x l IH]; intros H; [reflexivity |].
  specialize (IH (fun y Hy => H y (or_intror Hy))).
  cbn [filter length].
  destruct (H x (or_introl eq_refl)) as [(-> & -> & ->) | [(-> & -> & ->) | (-> & -> & ->)]];
    cbn [length]; lia.
Qed.

End PortableFacts.

(** X9: what the records say of the files (relative path, size, hash,
    dates) depends on the tree and the options only: scanning the same
    tree from another root path or another working directory gives the
    same records apart from their absolute paths. *)
Theorem X9_records_do_not_depend_on_the_root (cwd1 cwd2 : list string)
    (root1 root2 : path) (dir : node) (options : PartialScanOptions) :
  well_formed dir = true ->
  map portable (records_of (fst (scan cwd1 root1 (Some dir) options)))
  = map portable (records_of (fst (scan cwd2 root2 (Some dir) options))).
Proof.
  intros Hwf.
  destruct (first_failure (recursive (spread defaultOptions options)) dir)
    as [e |] eqn:Hfirst.
  - destruct (ScanFacts.scan_first_failure cwd1 root1 options dir e Hfirst) as [t1 ->].
    destruct (ScanFacts.scan_first_failure cwd2 root2 options dir e Hfirst) as [t2 ->].
    reflexivity.
  - apply TreeFacts.first_failure_listable in Hfirst.
    destruct (ScanFacts.scan_listable cwd1 root1 options dir Hfirst) as (t1 & -> & _).
    destruct (ScanFacts.scan_listable cwd2 root2 options dir Hfirst) as (t2 & -> & _).
    cbn [fst records_of].
    pose proof (TreeFacts.files_valid (recursive (spread defaultOptions options)) dir Hwf)
      as Hvalid.
    induction (files (recursive (spread defaultOptions options)) dir) as [| x l IH];
      [reflexivity |].
    cbn [flat_map]. rewrite !map_app.
    rewrite IH by (intros y Hy; apply Hvalid; right; exact Hy).
    rewrite (PortableFacts.outputs_portable cwd1 root1 cwd2 root2)
      by (apply Hvalid; left; reflexivity).
    reflexivity.
Qed.

Lemma X9_records_do_not_depend_on_the_root_witness :
  map portable (records_of (fst (scan sample_cwd sample_root (Some sample_tree) no_options)))
  = map portable
      (records_of (fst (scan ["tmp"] (mkPath false [".."; "mnt"; "pictures"])
                         (Some sample_tree) no_options))).
Proof.
  apply (X9_records_do_not_depend_on_the_root sample_cwd ["tmp"] sample_root
           (mkPath false [".."; "mnt"; "pictures"]) sample_tree no_options).
  reflexivity.
Defined.

(** X10: in a scan whose listings succeed every candidate is accounted
    for once: it gives a record, or a diagnostic on [console.error], or it
    is dropped in silence by the size predicate.  The records are as many
    as the accepted candidates and the diagnostics as many as the
    candidates on which extraction fails, however many there are. *)
Theorem X10_candidates_are_accounted_for (cwd : list string) (rootPath : path)
    (dir : node) (options : PartialScanOptions) :
  listable (recursive (spread defaultOptions options)) dir = true ->
  exists rs t,
    scan cwd rootPath (Some dir) options = (inr rs, t)
    /\ length rs
       = length (filter (accepted cwd rootPath (spread defaultOptions options))
                        (candidates (spread defaultOptions options) dir))
    /\ length (diagnostics t)
       = length (filter (unreadable cwd rootPath)
                        (candidates (spread defaultOptions options) dir))
    /\ length (candidates (spread defaultOptions options) dir)
       = (length rs + length (diagnostics t)
          + length (filter (oversized cwd rootPath (spread defaultOptions options))
                           (candidates (spread defaultOptions options) dir)))%nat.
Proof.
  intros Hok.
  destruct (scan_isolates cwd rootPath options dir Hok) as (rs & t & Hrun & Hrs & Hdiag).
  exists rs, t. split; [exact Hrun |].
  assert (length rs
          = length (filter (accepted cwd rootPath (spread defaultOptions options))
                           (candidates (spread defaultOptions options) dir))) as Hn.
  { rewrite Hrs. apply ListFacts.length_flat_map_filter.
    intros x _. unfold accepted.
    destruct (extract cwd rootPath (full_path rootPath x) (ffile x)) as [e | m];
      [reflexivity |].
    destruct (isValidSize m _); reflexivity. }
  assert (length (diagnostics t)
          = length (filter (unreadable cwd rootPath)
                           (candidates (spread defaultOptions options) dir))) as Hd.
  { rewrite Hdiag. apply ListFacts.length_flat_map_filter.
    intros x _. unfold unreadable.
    destruct (extract cwd rootPath (full_path rootPath x) (ffile x)); reflexivity. }
  split; [exact Hn | split; [exact Hd |]].
  rewrite Hn, Hd. apply PortableFacts.partition_length.
  intros x _. unfold accepted, unreadable, oversized.
  destruct (extract cwd rootPath (full_path rootPath x) (ffile x)) as [e | m]; [tauto |].
  destruct (isValidSize m _); cbn [negb]; tauto.
Qed.

Lemma X10_candidates_are_accounted_for_witness :
  exists rs t,
    scan sample_cwd sample_root (Some mixed_tree) twelve_bytes
    = (inr rs, t)
    /\ length rs
       = length (filter (accepted sample_cwd sample_root
                           (spread defaultOptions twelve_bytes))
                        (candidates
                           (spread defaultOptions twelve_bytes)
                           mixed_tree))
    /\ length (diagnostics t)
       = length (filter (unreadable sample_cwd sample_root)
                        (candidates
                           (spread defaultOptions twelve_bytes)
                           mixed_tree))
    /\ length (candidates (spread defaultOptions twelve_bytes)
                          mixed_tree)
       = (length rs + length (diagnostics t)
          + length (filter (oversized sample_cwd sample_root
                              (spread defaultOptions twelve_bytes))
                           (candidates
                              (spread defaultOptions twelve_bytes)
                              mixed_tree)))%nat.
Proof.
  apply (X10_candidates_are_accounted_for sample_cwd sample_root mixed_tree
           twelve_bytes).
  reflexivity.
Defined.

(** * Further properties of the type predicate *)

Module ExtnameFacts.
Import Extname.

Lemma lower_char_slash c : Ascii.eqb (lower_char c) "/" = Ascii.eqb c "/".
Proof. destruct c as [[] [] [] [] [] [] [] []]; reflexivity. Qed.

Lemma lower_char_dot c : Ascii.eqb (lower_char c) "." = Ascii.eqb c ".".
Proof. destruct c as [[] [] [] [] [] [] [] []]; reflexivity. Qed.

Lemma lower_char_idem c : lower_char (lower_char c) = lower_char c.
Proof. destruct c as [[] [] [] [] [] [] [] []]; reflexivity. Qed.

Lemma toLowerCase_idem s : toLowerCase (toLowerCase s) = toLowerCase s.
Proof.
  induction s as [| c s IH]; [reflexivity |].
  cbn [toLowerCase]. rewrite lower_char_idem, IH. reflexivity.
Qed.

Lemma chars_toLowerCase s :
  list_ascii_of_string (toLowerCase s) = map lower_char (list_ascii_of_string s).
Proof.
  induction s as [| c s IH]; [reflexivity |].
  cbn [toLowerCase list_ascii_of_string map]. rewrite IH. reflexivity.
Qed.

Lemma substring_toLowerCase s : forall n m,
  substring n m (toLowerCase s) = toLowerCase (substring n m s).
Proof.
  induction s as [| c s IH]; intros [| n] [| m]; cbn; try reflexivity.
  - rewrite IH. reflexivity.
  - apply IH.
  - apply IH.
Qed.

Lemma body_lower v i c : body v i (lower_char c) = body v i c.
Proof. unfold body. rewrite lower_char_slash, lower_char_dot. reflexivity. Qed.

Lemma loop_lower l : forall i v, loop (map lower_char l) i v = loop l i v.
Proof.
  induction l as [| c l IH]; intros i v; [reflexivity |].
  cbn [map loop]. rewrite body_lower.
  destruct (body v i c) as [v' []]; [reflexivity | apply IH].
Qed.

(** Lower-casing a name lower-cases its extension and nothing else. *)
Lemma extname_toLowerCase s : extname (toLowerCase s) = toLowerCase (extname s).
Proof.
  unfold extname. rewrite chars_toLowerCase, <- map_rev, length_map, loop_lower.
  match goal with |- context [if ?b then _ else _] => destruct b end;
    [reflexivity | apply substring_toLowerCase].
Qed.

(** *** Names without an extension *)

Lemma has_char_false c s :
  has_char c s = false ->
  Forall (fun d => Ascii.eqb d c = false) (list_ascii_of_string s).
Proof.
  unfold has_char. induction (list_ascii_of_string s) as [| d l IH]; [constructor |].
  cbn [existsb]. intros H. apply orb_false_iff in H as [Hd Hl].
  constructor; [| exact (IH Hl)].
  rewrite Ascii.eqb_sym. exact Hd.
Qed.

Lemma body_no_dot v i c :
  Ascii.eqb c "." = false -> startDot v = -1 -> startDot (fst (body v i c)) = -1.
Proof.
  intros Hc Hv. destruct v as [sd sp ep ms pd]. cbn [startDot] in Hv. subst sd.
  unfold body. rewrite Hc. cbn [startDot startPart endPos matchedSlash preDotState].
  destruct (Ascii.eqb c "/"); [destruct (negb ms); reflexivity |].
  destruct (ep =? -1); reflexivity.
Qed.

Lemma loop_no_dot l : forall i v,
  Forall (fun c => Ascii.eqb c "." = false) l ->
  startDot v = -1 -> startDot (loop l i v) = -1.
Proof.
  induction l as [| c l IH]; intros i v Hl Hv; [exact Hv |].
  inversion Hl as [| ? ? Hc Hrest]; subst. cbn [loop].
  pose proof (body_no_dot v i c Hc Hv) as Hstep.
  destruct (body v i c) as [v' []]; [exact Hstep | apply IH; assumption].
Qed.

Lemma extname_no_dot s : has_char "." s = false -> extname s = "".
Proof.
  intros H. unfold extname.
  rewrite (loop_no_dot _ _ init); [reflexivity | | reflexivity].
  apply Forall_rev, has_char_false, H.
Qed.

(** A character that is no separator never stops the loop. *)
Lemma body_goes_on v i c : Ascii.eqb c "/" = false -> snd (body v i c) = false.
Proof.
  intros Hc. unfold body. rewrite Hc.
  destruct (endPos v =? -1); destruct (Ascii.eqb c ".");
    repeat match goal with |- context [if ?b then _ else _] => destruct b end;
    reflexivity.
Qed.

Lemma loop_app l1 : forall l2 i v,
  Forall (fun c => Ascii.eqb c "/" = false) l1 ->
  loop (l1 ++ l2) i v = loop l2 (i - Z.of_nat (length l1)) (loop l1 i v).
Proof.
  induction l1 as [| c l1 IH]; intros l2 i v Hl.
  - cbn. rewrite Z.sub_0_r. reflexivity.
  - inversion Hl as [| ? ? Hc Hrest]; subst.
    cbn [app loop]. pose proof (body_goes_on v i c Hc) as Hgo.
    destruct (body v i c) as [v' stop]. cbn [snd] in Hgo. subst stop.
    rewrite IH by exact Hrest.
    replace (i - Z.of_nat (length (c :: l1))) with (i - 1 - Z.of_nat (length l1))
      by (cbn [length]; lia).
    reflexivity.
Qed.

(** Before any dot is met, plain characters leave the dot and the state
    before it alone. *)
Lemma loop_plain l : forall i v,
  Forall plain_char l -> startDot v = -1 -> preDotState v = 0 ->
  startDot (loop l i v) = -1 /\ preDotState (loop l i v) = 0.
Proof.
  induction l as [| c l IH]; intros i v Hl Hs Hp; [auto |].
  inversion Hl as [| ? ? [Hslash Hdot] Hrest]; subst. cbn [loop].
  destruct v as [sd sp ep ms pd]. cbn [startDot preDotState] in Hs, Hp. subst sd pd.
  unfold body. rewrite Hslash, Hdot.
  cbn [startDot startPart endPos matchedSlash preDotState].
  destruct (ep =? -1); cbn; apply IH; auto.
Qed.

Lemma extname_dotfile rest :
  has_char "." rest = false -> has_char "/" rest = false ->
  extname (String "." rest) = "".
Proof.
  intros Hdot Hslash. unfold extname. cbn [list_ascii_of_string rev].
  assert (Forall plain_char (rev (list_ascii_of_string rest))) as Hplain.
  { apply Forall_rev.
    pose proof (has_char_false _ _ Hdot) as H1.
    pose proof (has_char_false _ _ Hslash) as H2.
    rewrite Forall_forall in *. intros c Hc. split; auto. }
  rewrite loop_app
    by (eapply Forall_impl; [| exact Hplain]; intros c [H _]; exact H).
  destruct (loop_plain _ (Z.of_nat (length ("."%char :: list_ascii_of_string rest)) - 1)
              init Hplain eq_refl eq_refl) as [Hs Hp].
  destruct (loop (rev (list_ascii_of_string rest)) _ init) as [sd sp ep ms pd].
  cbn [startDot preDotState] in Hs, Hp. subst sd pd.
  cbn [loop]. unfold body.
  replace (Ascii.eqb "." "/") with false by reflexivity.
  replace (Ascii.eqb "." ".") with true by reflexivity.
  cbn [startDot startPart endPos matchedSlash preDotState].
  destruct (ep =? -1); cbn; rewrite ?orb_true_r; reflexivity.
Qed.

(** *** Names of the form stem, dot, extension *)

Lemma chars_append a b :
  list_ascii_of_string (a ++ b)%string
  = list_ascii_of_string a ++ list_ascii_of_string b.
Proof.
  induction a as [| c a IH]; [reflexivity |].
  cbn [String.append list_ascii_of_string app]. rewrite IH. reflexivity.
Qed.

Lemma chars_length s : length (list_ascii_of_string s) = String.length s.
Proof. induction s as [| c s IH]; [reflexivity | cbn; rewrite IH; reflexivity]. Qed.

Lemma substring_skip a b m :
  substring (String.length a) m (a ++ b)%string = substring 0 m b.
Proof. induction a as [| c a IH]; [reflexivity | exact IH]. Qed.

Lemma substring_all b : substring 0 (String.length b) b = b.
Proof.
  induction b as [| c b IH]; [reflexivity |].
  cbn [String.length substring]. rewrite IH. reflexivity.
Qed.

Lemma loop_plain_id l : forall i v,
  Forall plain_char l -> startDot v = -1 -> endPos v <> -1 -> loop l i v = v.
Proof.
  induction l as [| c l IH]; intros i v Hl Hs He; [reflexivity |].
  inversion Hl as [| ? ? [Hslash Hdot] Hrest]; subst. cbn [loop].
  destruct v as [sd sp ep ms pd]. cbn [startDot endPos] in Hs, He. subst sd.
  unfold body. rewrite Hslash, Hdot.
  cbn [startDot startPart endPos matchedSlash preDotState].
  destruct (Z.eqb_spec ep (-1)); [contradiction |].
  cbn. apply IH; auto.
Qed.

Lemma loop_after_dot l : forall i v,
  Forall (fun c => Ascii.eqb c "/" = false) l ->
  startDot v <> -1 -> endPos v <> -1 ->
  startDot (loop l i v) = startDot v
  /\ endPos (loop l i v) = endPos v
  /\ startPart (loop l i v) = startPart v
  /\ (preDotState v <> 0 \/ l <> [] -> preDotState (loop l i v) <> 0).
Proof.
  induction l as [| c l IH]; intros i v Hl Hs He.
  - cbn. repeat split. intros [H | H]; [exact H | congruence].
  - inversion Hl as [| ? ? Hslash Hrest]; subst. cbn [loop].
    destruct v as [sd sp ep ms pd]. cbn [startDot endPos] in Hs, He.
    unfold body. rewrite Hslash.
    cbn [startDot startPart endPos matchedSlash preDotState].
    destruct (Z.eqb_spec ep (-1)); [contradiction |].
    cbn [startDot startPart endPos matchedSlash preDotState].
    destruct (Z.eqb_spec sd (-1)); [contradiction |].
    assert (forall pd', pd' <> 0 ->
      startDot (loop l (i - 1) (mkVars sd sp ep ms pd')) = sd
      /\ endPos (loop l (i - 1) (mkVars sd sp ep ms pd')) = ep
      /\ startPart (loop l (i - 1) (mkVars sd sp ep ms pd')) = sp
      /\ (pd <> 0 \/ c :: l <> [] ->
          preDotState (loop l (i - 1) (mkVars sd sp ep ms pd')) <> 0)) as Hnext.
    { intros pd' Hpd'.
      destruct (IH (i - 1) (mkVars sd sp ep ms pd') Hrest Hs He) as (H1 & H2 & H3 & H4).
      cbn [startDot startPart endPos preDotState] in *.
      repeat split; try assumption. intros _. apply H4. left. exact Hpd'. }
    destruct (Ascii.eqb c ".").
    + destruct (Z.eqb_spec pd 1) as [-> | Hpd]; cbn [negb fst snd];
        apply Hnext; discriminate.
    + cbn [negb fst snd]. apply Hnext. discriminate.
Qed.

(** The extension of a name is what follows its last dot, the dot
    included, when something stands before the dot and after it. *)
Lemma extname_stem_ext (stem ext : string) :
  stem <> "" -> ext <> "" ->
  has_char "/" stem = false -> has_char "/" ext = false -> has_char "." ext = false ->
  extname (stem ++ String "." ext) = String "." ext.
Proof.
  intros Hstem Hext Hs1 Hs2 Hd2.
  unfold extname.
  rewrite chars_append. cbn [list_ascii_of_string].
  rewrite rev_app_distr. cbn [rev]. rewrite <- app_assoc. cbn [app].
  set (cs := list_ascii_of_string stem). set (ce := list_ascii_of_string ext).
  assert (Forall (fun c => Ascii.eqb c "/" = false) (rev cs)) as Hcs
    by (apply Forall_rev, has_char_false, Hs1).
  assert (Forall plain_char (rev ce)) as Hce.
  { apply Forall_rev.
    pose proof (has_char_false _ _ Hs2) as H1.
    pose proof (has_char_false _ _ Hd2) as H2.
    fold ce in H1, H2. rewrite Forall_forall in *. intros c Hc. split; auto. }
  assert (length ce <> 0%nat) as Hne.
  { unfold ce. rewrite chars_length. destruct ext; [congruence | discriminate]. }
  assert (rev cs <> []) as Hcsne.
  { intros H. apply (f_equal (@length ascii)) in H. rewrite length_rev in H.
    unfold cs in H. rewrite chars_length in H. destruct stem; [congruence | discriminate]. }
  rewrite length_app. cbn [length].
  set (n := Z.of_nat (length cs + S (length ce))).
  rewrite loop_app
    by (eapply Forall_impl; [| exact Hce]; intros c [H _]; exact H).
  rewrite length_rev.
  assert (loop (rev ce) (n - 1) init = mkVars (-1) 0 n false 0) as Hphase1.
  { destruct (rev ce) as [| c0 l'] eqn:Hrev.
    - apply (f_equal (@length ascii)) in Hrev. rewrite length_rev in Hrev.
      cbn in Hrev. contradiction.
    - inversion Hce as [| ? ? [Hslash Hdot] Hrest]; subst. cbn [loop].
      unfold body, init. rewrite Hslash, Hdot. cbn.
      replace (n - 1 + 1) with n by lia.
      apply loop_plain_id; [exact Hrest | reflexivity |].
      cbn [endPos]. unfold n. lia. }
  rewrite Hphase1.
  set (d := n - 1 - Z.of_nat (length ce)).
  assert (body (mkVars (-1) 0 n false 0) d "." = (mkVars d 0 n false 0, false)) as Hstep.
  { unfold body.
    replace (Ascii.eqb "." "/") with false by reflexivity.
    replace (Ascii.eqb "." ".") with true by reflexivity.
    cbn [startDot startPart endPos matchedSlash preDotState].
    destruct (Z.eqb_spec n (-1)) as [Hn | _]; [unfold n in Hn; lia |].
    reflexivity. }
  cbn [loop]. rewrite Hstep.
  assert (d = Z.of_nat (length cs)) as Hd by (unfold d, n; lia).
  destruct (loop_after_dot (rev cs) (d - 1) (mkVars d 0 n false 0) Hcs)
    as (H1 & H2 & H3 & H4).
  { cbn [startDot]. lia. }
  { cbn [endPos]. unfold n. lia. }
  cbn [startDot startPart endPos preDotState] in H1, H2, H3, H4.
  specialize (H4 (or_intror Hcsne)).
  destruct (loop (rev cs) (d - 1) (mkVars d 0 n false 0)) as [sd sp ep ms pd].
  cbn [startDot startPart endPos preDotState] in *. subst sd ep sp.
  destruct (Z.eqb_spec d (-1)); [lia |].
  destruct (Z.eqb_spec n (-1)); [unfold n in *; lia |].
  destruct (Z.eqb_spec pd 0); [contradiction |].
  destruct (Z.eqb_spec d (n - 1)); [unfold n in *; lia |].
  rewrite andb_false_r. cbn [orb andb].
  rewrite Hd, Nat2Z.id.
  replace (Z.to_nat (n - Z.of_nat (length cs))) with (S (length ce))
    by (unfold n; lia).
  unfold cs, ce. rewrite !chars_length.
  rewrite substring_skip.
  exact (substring_all (String "." ext)).
Qed.

End ExtnameFacts.

Module TypeFacts.

Lemma existsb_eqb_In (ext : string) (types : list string) :
  existsb (String.eqb ext) types = true <-> In ext types.
Proof.
  rewrite existsb_exists. split.
  - intros (t & Hin & Heq). apply String.eqb_eq in Heq. subst t. exact Hin.
  - intros Hin. exists ext. split; [exact Hin | apply String.eqb_refl].
Qed.

Lemma lower_char_not_upper (c : ascii) : is_upper (lower_char c) = false.
Proof. destruct c as [[] [] [] [] [] [] [] []]; reflexivity. Qed.

Lemma toLowerCase_no_upper (s : string) : has_upper (toLowerCase s) = false.
Proof.
  unfold has_upper. induction s as [| c s IH]; [reflexivity |].
  cbn [toLowerCase list_ascii_of_string existsb].
  rewrite lower_char_not_upper, IH. reflexivity.
Qed.

(** A string without a letter from [A] to [Z] is found in a list exactly
    when it is found among the entries without such a letter. *)
Lemma existsb_no_upper (ext : string) (types : list string) :
  has_upper ext = false ->
  existsb (String.eqb ext) types
  = existsb (String.eqb ext) (filter (fun t => negb (has_upper t)) types).
Proof.
  intros Hext. induction types as [| t types IH]; [reflexivity |].
  cbn [existsb filter].
  destruct (has_upper t) eqn:Ht; cbn [negb].
  - destruct (String.eqb_spec ext t) as [-> | _]; [congruence | exact IH].
  - cbn [existsb]. rewrite IH. reflexivity.
Qed.

End TypeFacts.

(** X11: on names written in ASCII the type test does not look at the
    case of the letters: two such names that are equal once lower-cased
    are both accepted or both rejected. *)
Theorem X11_type_test_ignores_case (name1 name2 : string) (options : ScanOptions) :
  is_ascii_name name1 = true -> is_ascii_name name2 = true ->
  toLowerCase name1 = toLowerCase name2 ->
  isValidImageFile name1 options = isValidImageFile name2 options.
Proof.
  intros _ _ H. unfold isValidImageFile.
  rewrite <- !ExtnameFacts.extname_toLowerCase, H. reflexivity.
Qed.

Lemma X11_type_test_ignores_case_witness :
  isValidImageFile "Holiday.JPeG" defaultOptions
  = isValidImageFile "holiday.jpeg" defaultOptions.
Proof.
  apply (X11_type_test_ignores_case "Holiday.JPeG" "holiday.jpeg" defaultOptions);
    reflexivity.
Defined.

(** X12: only the extension of the name is lower-cased, not [fileTypes]:
    for a name written in ASCII, an entry of [fileTypes] that holds one
    of the letters [A] to [Z] matches nothing, and the type test answers
    the same with every such entry removed. *)
Theorem X12_upper_case_types_match_nothing (name : string) (r z : bool)
    (types : list string) (m : option Z) :
  is_ascii_name name = true ->
  isValidImageFile name (mkScanOptions r z types m)
  = isValidImageFile name
      (mkScanOptions r z (filter (fun t => negb (has_upper t)) types) m).
Proof.
  intros _. unfold isValidImageFile. cbn [fileTypes].
  apply TypeFacts.existsb_no_upper, TypeFacts.toLowerCase_no_upper.
Qed.

Lemma X12_upper_case_types_match_nothing_witness :
  isValidImageFile "holiday.JPG" (mkScanOptions true true [".JPG"; ".png"] None)
  = isValidImageFile "holiday.JPG"
      (mkScanOptions true true
         (filter (fun t => negb (has_upper t)) [".JPG"; ".png"]) None).
Proof.
  apply (X12_upper_case_types_match_nothing "holiday.JPG" true true [".JPG"; ".png"] None).
  reflexivity.
Defined.

(** X13: a name without a dot, and a name whose only dot is its first
    character, have the empty extension: the type test accepts them
    exactly when [fileTypes] holds the empty string, so a file called
    [.jpg] is not a JPEG picture for the scanner. *)
Theorem X13_names_without_extension (name : string) (options : ScanOptions) :
  has_char "." name = false
  \/ (exists rest, name = String "." rest
                   /\ has_char "." rest = false /\ has_char "/" rest = false) ->
  (isValidImageFile name options = true <-> In "" (fileTypes options)).
Proof.
  intros Hname.
  assert (Extname.extname name = "") as Hext.
  { destruct Hname as [H | (rest & -> & Hdot & Hslash)].
    - apply ExtnameFacts.extname_no_dot, H.
    - apply ExtnameFacts.extname_dotfile; assumption. }
  unfold isValidImageFile. rewrite Hext. cbn [toLowerCase].
  apply TypeFacts.existsb_eqb_In.
Qed.

Lemma X13_names_without_extension_witness :
  isValidImageFile ".jpg" defaultOptions = true <-> In "" (fileTypes defaultOptions).
Proof.
  apply (X13_names_without_extension ".jpg" defaultOptions).
  right. exists "jpg". repeat split; reflexivity.
Defined.

(** X14: for a name made of a non-empty stem, a dot and a non-empty
    extension without a dot (no separator in either), the type test
    accepts exactly when the dot and the extension, lower-cased, are an
    entry of [fileTypes]; dots in the stem play no part. *)
Theorem X14_type_test_reads_the_last_extension (stem ext : string)
    (options : ScanOptions) :
  stem <> "" -> ext <> "" ->
  has_char "/" stem = false -> has_char "/" ext = false -> has_char "." ext = false ->
  (isValidImageFile (stem ++ String "." ext) options = true
   <-> In (toLowerCase (String "." ext)) (fileTypes options)).
Proof.
  intros Hstem Hext Hs1 Hs2 Hd2. unfold isValidImageFile.
  rewrite ExtnameFacts.extname_stem_ext by assumption.
  apply TypeFacts.existsb_eqb_In.
Qed.

Lemma X14_type_test_reads_the_last_extension_witness :
  isValidImageFile ("holiday.2024.tar" ++ String "." "PNG") defaultOptions = true
  <-> In (toLowerCase (String "." "PNG")) (fileTypes defaultOptions).
Proof.
  apply (X14_type_test_reads_the_last_extension "holiday.2024.tar" "PNG" defaultOptions);
    try discriminate; reflexivity.
Defined.

(** * Further properties of the content hash *)

Module DigestFacts.
Import Sha256.

Lemma round_length st kw : length (round st kw) = length st.
Proof.
  unfold round.
  destruct st as [| a [| b [| c [| d [| e [| f [| g [| h [| x st]]]]]]]]]; reflexivity.
Qed.

Lemma rounds_length kws : forall st, length (fold_left round kws st) = length st.
Proof.
  induction kws as [| kw kws IH]; intros st; [reflexivity |].
  cbn [fold_left]. rewrite IH. apply round_length.
Qed.

Lemma add_state_length h : forall st,
  length st = length h -> length (add_state h st) = length h.
Proof.
  induction h as [| x h IH]; intros [| y st] H; try reflexivity; try discriminate.
  cbn [add_state length]. rewrite IH; [reflexivity | injection H; auto].
Qed.

Lemma compress_length h block : length (compress h block) = length h.
Proof. unfold compress. apply add_state_length, rounds_length. Qed.

Lemma compress_all_length bs : forall h,
  length (fold_left compress bs h) = length h.
Proof.
  induction bs as [| b bs IH]; intros h; [reflexivity |].
  cbn [fold_left]. rewrite IH. apply compress_length.
Qed.

Lemma state_bytes_length h : length (state_bytes h) = (4 * length h)%nat.
Proof.
  unfold state_bytes. induction h as [| x h IH]; [reflexivity |].
  cbn [flat_map]. rewrite length_app, IH. cbn [be_bytes length]. lia.
Qed.

Lemma hex_byte_lower b :
  forallb is_lower_hex (list_ascii_of_string (hex_byte b)) = true.
Proof. destruct b; reflexivity. Qed.

Lemma hex_length bs : String.length (hex bs) = (2 * length bs)%nat.
Proof.
  induction bs as [| b bs IH]; [reflexivity |].
  cbn [hex fold_right]. fold (hex bs).
  unfold hex_byte. cbn [String.append String.length length]. rewrite IH. lia.
Qed.

Lemma hex_lower bs : forallb is_lower_hex (list_ascii_of_string (hex bs)) = true.
Proof.
  induction bs as [| b bs IH]; [reflexivity |].
  cbn [hex fold_right]. fold (hex bs).
  rewrite ExtnameFacts.chars_append, forallb_app, hex_byte_lower, IH. reflexivity.
Qed.

Lemma sha256_length msg : length (sha256 msg) = 32%nat.
Proof.
  unfold sha256. rewrite state_bytes_length, compress_all_length. reflexivity.
Qed.

End DigestFacts.

(** X15: the promise of [calculateFileHash] settles with the stream.  If
    the stream emits ['error'], after any number of chunks, the promise
    rejects with that error and no digest of the part read is given; if
    it ends, the promise resolves with the digest of the chunks put end
    to end, wherever the chunk boundaries fall. *)
Theorem X15_hash_settles_with_the_stream (s : stream) :
  on_events s Sha256.createHash
  = match stream_error s with
    | Some e => inl e
    | None => inr (Sha256.sha256_hex (concat (delivered s)))
    end.
Proof.
  pose proof (on_events_settles s Sha256.createHash) as Hsettle.
  pose proof (on_events_spec s [] _ Sha256Facts.fed_createHash) as Hspec.
  destruct (stream_error s) as [e |].
  - exact Hsettle.
  - destruct Hsettle as [d Hd]. rewrite Hd in Hspec |- *.
    destruct Hspec as [_ ->]. reflexivity.
Qed.

(** X16: a hash that [calculateFileHash] returns is a string of 64
    characters, each a digit or a letter from [a] to [f] in lower case. *)
Theorem X16_hash_is_64_lower_case_hex_digits (f : file) (d : string) :
  calculateFileHash f = inr d ->
  String.length d = 64%nat
  /\ forallb is_lower_hex (list_ascii_of_string d) = true.
Proof.
  intros H. apply calculateFileHash_digest in H. subst d.
  unfold Sha256.sha256_hex. split.
  - rewrite DigestFacts.hex_length, DigestFacts.sha256_length. reflexivity.
  - apply DigestFacts.hex_lower.
Qed.

Lemma X16_hash_is_64_lower_case_hex_digits_witness :
  String.length (hash gif_record) = 64%nat
  /\ forallb is_lower_hex (list_ascii_of_string (hash gif_record)) = true.
Proof.
  apply (X16_hash_is_64_lower_case_hex_digits (plain "012345678901234")).
  vm_compute. reflexivity.
Defined.

(** * Further properties of the request handlers *)

(** X17: what [POST /scan] answers to a body of the declared type (a
    path that is absent or a string, options that are absent or in which
    every property is omitted or holds a value of its declared type).
    Without a path, or with the empty string, it answers 400 and does not
    touch the filesystem.  Otherwise, when the resolved path names
    nothing or a listing of the walk fails, it answers 500 with the code
    [SCAN_ERROR], the message of the error, which is that of the first
    listing to fail when the path names something, and the path and
    options as they were sent.  In every other case it answers 200 with
    the records of the files the walk reaches, [totalFiles] being their
    number: a file that cannot be read never makes the request fail. *)
Theorem X17_scan_request_outcomes (w : env) (req : ScanRequest) :
  match req_path req with
  | None => post_scan w req = (path_required, [])
  | Some given =>
      if String.eqb given "" then post_scan w req = (path_required, [])
      else
        let options := override (req_options req) no_options in
        let merged := spread defaultOptions options in
        let resolved := path_resolve (env_cwd w) (parse_path given) in
        match env_fs w resolved with
        | None => exists e, fst (post_scan w req) = scan_error given options e
        | Some dir =>
            fst (post_scan w req)
            = match first_failure (recursive merged) dir with
              | Some e => scan_error given options e
              | None =>
                  scan_result w
                    (flat_map (visit_results (env_cwd w) resolved merged resolved)
                       (files (recursive merged) dir))
              end
        end
  end.
Proof.
  unfold post_scan. destruct (req_path req) as [given |]; [| reflexivity].
  cbn [falsy]. destruct (String.eqb given ""); [reflexivity |]. cbv zeta.
  set (options := override (req_options req) no_options).
  set (resolved := path_resolve (env_cwd w) (parse_path given)).
  destruct (env_fs w resolved) as [dir |].
  - destruct (first_failure (recursive (spread defaultOptions options)) dir)
      as [e |] eqn:Hfirst.
    + destruct (ScanFacts.scan_first_failure (env_cwd w) resolved options dir e Hfirst)
        as [t ->].
      reflexivity.
    + apply TreeFacts.first_failure_listable in Hfirst.
      destruct (ScanFacts.scan_listable (env_cwd w) resolved options dir Hfirst)
        as (t & -> & _).
      reflexivity.
  - rewrite ScanFacts.scan_missing_root. eexists. reflexivity.
Qed.

(** X18: a path that [POST /scan] answers with 200 is a path that
    [POST /validate] declares valid, with the resolved path of the
    scan. *)
Theorem X18_scanned_paths_validate (w : env) (given : string)
    (options : option PartialScanOptions) :
  status (fst (post_scan w (mkScanRequest (Some given) options))) = 200 ->
  post_validate w (Some given)
  = mkResponse 200 (Valid (path_resolve (env_cwd w) (parse_path given))).
Proof.
  unfold post_scan, post_validate. cbn [req_path req_options falsy].
  destruct (String.eqb given ""); [discriminate |]. cbv zeta.
  destruct (scan _ _ _ _) as [[e | rs] t] eqn:Hscan; [discriminate |].
  intros _.
  apply ScanFacts.scan_returned in Hscan as (dir & -> & _).
  reflexivity.
Qed.

Lemma X18_scanned_paths_validate_witness :
  post_validate (sample_env (Some sample_tree)) (Some "/srv/images")
  = mkResponse 200
      (Valid (path_resolve (env_cwd (sample_env (Some sample_tree)))
                (parse_path "/srv/images"))).
Proof.
  apply (X18_scanned_paths_validate (sample_env (Some sample_tree)) "/srv/images" None).
  vm_compute. reflexivity.
Defined.

(** X19: [POST /validate] only asks [fs.access].  For a path, a
    non-empty string, that can be accessed and whose listing fails, as
    that of a regular file does, it declares the path valid, and
    [POST /scan] on the same path answers 500 with the error of the
    listing. *)
Theorem X19_valid_path_can_fail_to_scan (w : env) (given : string)
    (options : option PartialScanOptions) (e : errno) :
  given <> "" ->
  fs_access (env_fs w (path_resolve (env_cwd w) (parse_path given))) = inr tt ->
  fs_readdir (env_fs w (path_resolve (env_cwd w) (parse_path given))) = inl e ->
  post_validate w (Some given)
  = mkResponse 200 (Valid (path_resolve (env_cwd w) (parse_path given)))
  /\ fst (post_scan w (mkScanRequest (Some given) options))
     = scan_error given (override options no_options) e.
Proof.
  intros Hgiven Haccess Hlist.
  unfold post_scan, post_validate. cbn [req_path req_options falsy].
  destruct (String.eqb_spec given "") as [Hempty | _]; [contradiction |]. cbv zeta.
  rewrite Haccess. split; [reflexivity |].
  destruct (env_fs w (path_resolve (env_cwd w) (parse_path given))) as [n |];
    [| discriminate].
  assert (first_failure
            (recursive (spread defaultOptions (override options no_options))) n
          = Some e) as Hfirst.
  { destruct n as [f | [e' |] entries |]; cbn in Hlist |- *; congruence. }
  destruct (ScanFacts.scan_first_failure (env_cwd w)
              (path_resolve (env_cwd w) (parse_path given))
              (override options no_options) n e Hfirst) as [t ->].
  reflexivity.
Qed.

Lemma X19_valid_path_can_fail_to_scan_witness :
  post_validate (sample_env (Some (NFile locked))) (Some "/srv/images/")
  = mkResponse 200
      (Valid (path_resolve (env_cwd (sample_env (Some (NFile locked))))
                (parse_path "/srv/images/")))
  /\ fst (post_scan (sample_env (Some (NFile locked)))
            (mkScanRequest (Some "/srv/images/") (Some gif_options)))
     = scan_error "/srv/images/" (override (Some gif_options) no_options) ENOTDIR.
Proof.
  apply (X19_valid_path_can_fail_to_scan (sample_env (Some (NFile locked)))
           "/srv/images/" (Some gif_options) ENOTDIR).
  - discriminate.
  - reflexivity.
  - reflexivity.
Defined.

(** * Further properties of the filters *)

Module FilterFacts.

Lemma filter_pointwise {A B : Type} (P : B -> bool) (g g' : A -> list B) (l : list A) :
  (forall x, In x l -> filter P (g x) = g' x) ->
  filter P (flat_map g l) = flat_map g' l.
Proof.
  induction l as [| x l IH]; intros H; [reflexivity |].
  cbn [flat_map]. rewrite filter_app, (H x (or_introl eq_refl)).
  rewrite IH by (intros y Hy; apply H; right; exact Hy). reflexivity.
Qed.

(** What the walk records for a file under a bound is what it records
    without one, if the size predicate accepts it. *)
Lemma bounded_results cwd rootPath (r z : option bool) (ft : option (list string))
    (bound : Z) (x : found) :
  filter (fun m => isValidSize m (Some bound))
    (visit_results cwd rootPath (spread defaultOptions (mkPartial r z ft None))
       rootPath x)
  = visit_results cwd rootPath (spread defaultOptions (mkPartial r z ft (Some bound)))
      rootPath x.
Proof.
  rewrite !FileFacts.visit_results_spec. unfold isValidImageFile.
  cbn [spread fileTypes maxSize opt_fileTypes opt_maxSize defaultOptions].
  destruct (existsb _ _); [| reflexivity].
  destruct (extract cwd rootPath (full_path rootPath x) (ffile x)) as [e | m];
    [reflexivity |].
  cbn [isValidSize filter].
  destruct (if bound =? 0 then true else size m <=? bound); reflexivity.
Qed.

Lemma narrowed_types (name : string) (o o' : ScanOptions) :
  (forall ty, In ty (fileTypes o') -> In ty (fileTypes o)) ->
  isValidImageFile name o' = true -> isValidImageFile name o = true.
Proof.
  unfold isValidImageFile. rewrite !TypeFacts.existsb_eqb_In. auto.
Qed.

(** What the walk records for a file with fewer types is what it records
    with more, if the name of the record passes the narrower test. *)
Lemma narrowed_results cwd rootPath (o o' : ScanOptions) (x : found) :
  Forall (fun s => valid_name s = true) (location x) ->
  (forall ty, In ty (fileTypes o') -> In ty (fileTypes o)) ->
  maxSize o = maxSize o' ->
  filter (fun m => isValidImageFile (last (segs (im_path m)) "") o')
    (visit_results cwd rootPath o rootPath x)
  = visit_results cwd rootPath o' rootPath x.
Proof.
  intros Hvalid Hsub Hmax. rewrite !FileFacts.visit_results_spec, Hmax.
  pose proof (narrowed_types (fname x) o o' Hsub) as Hnarrow.
  destruct (extract cwd rootPath (full_path rootPath x) (ffile x)) as [e | m] eqn:Hx.
  - destruct (isValidImageFile (fname x) o), (isValidImageFile (fname x) o');
      reflexivity.
  - apply RecordFacts.extract_fields in Hx as (Hpath & _); [| exact Hvalid].
    assert (last (segs (im_path m)) "" = fname x) as Hlast
      by (rewrite Hpath; apply last_last).
    destruct (isValidImageFile (fname x) o') eqn:Hnew.
    + rewrite (Hnarrow eq_refl).
      destruct (isValidSize m (maxSize o')); [| reflexivity].
      cbn [filter]. rewrite Hlast, Hnew. reflexivity.
    + destruct (isValidImageFile (fname x) o); [| reflexivity].
      destruct (isValidSize m (maxSize o')); [| reflexivity].
      cbn [filter]. rewrite Hlast, Hnew. reflexivity.
Qed.

End FilterFacts.

(** X20: the size bound only filters.  A scan with a bound fails exactly
    when the scan without it fails, with the same error, and otherwise
    returns the records of the scan without it that the size predicate
    accepts, in the same order. *)
Theorem X20_size_bound_filters_the_unbounded_scan (cwd : list string)
    (rootPath : path) (root : option node) (r z : option bool)
    (ft : option (list string)) (bound : Z) :
  fst (scan cwd rootPath root (mkPartial r z ft (Some bound)))
  = match fst (scan cwd rootPath root (mkPartial r z ft None)) with
    | inr rs => inr (filter (fun m => isValidSize m (Some bound)) rs)
    | inl e => inl e
    end.
Proof.
  destruct root as [dir |]; [| rewrite !ScanFacts.scan_missing_root; reflexivity].
  destruct (first_failure
              (recursive (spread defaultOptions (mkPartial r z ft (Some bound)))) dir)
    as [e |] eqn:Hfirst.
  - destruct (ScanFacts.scan_first_failure cwd rootPath
                (mkPartial r z ft (Some bound)) dir e Hfirst) as [t ->].
    destruct (ScanFacts.scan_first_failure cwd rootPath
                (mkPartial r z ft None) dir e Hfirst) as [t' ->].
    reflexivity.
  - apply TreeFacts.first_failure_listable in Hfirst.
    destruct (ScanFacts.scan_listable cwd rootPath
                (mkPartial r z ft (Some bound)) dir Hfirst) as (t & -> & _).
    destruct (ScanFacts.scan_listable cwd rootPath
                (mkPartial r z ft None) dir Hfirst) as (t' & -> & _).
    cbn [fst]. f_equal. symmetry.
    apply FilterFacts.filter_pointwise.
    intros x _. apply FilterFacts.bounded_results.
Qed.

(** X21: narrowing [fileTypes] only filters.  If a scan of a well-formed
    tree returns, the scan of the same tree with a list of types taken
    from the first returns the records of the first whose file name
    passes the type test of the second, in the same order. *)
Theorem X21_narrower_types_filter_the_scan (cwd : list string) (rootPath : path)
    (dir : node) (r z : option bool) (types types' : list string) (m : option Z)
    (rs : list ImageMetadata) (t : list io_event) :
  well_formed dir = true ->
  (forall ty, In ty types' -> In ty types) ->
  scan cwd rootPath (Some dir) (mkPartial r z (Some types) m) = (inr rs, t) ->
  fst (scan cwd rootPath (Some dir) (mkPartial r z (Some types') m))
  = inr (filter
           (fun rec =>
              isValidImageFile (last (segs (im_path rec)) "")
                (spread defaultOptions (mkPartial r z (Some types') m)))
           rs).
Proof.
  intros Hwf Hsub Hscan.
  apply ScanFacts.scan_returned in Hscan as (dir' & Hdir & Hok & -> & _).
  injection Hdir as <-.
  destruct (ScanFacts.scan_listable cwd rootPath
              (mkPartial r z (Some types') m) dir Hok) as (t' & -> & _).
  cbn [fst]. f_equal. symmetry.
  apply FilterFacts.filter_pointwise.
  intros x Hx. apply FilterFacts.narrowed_results.
  - exact (TreeFacts.files_valid _ dir Hwf x Hx).
  - exact Hsub.
  - reflexivity.
Qed.

Lemma X21_narrower_types_filter_the_scan_witness :
  fst (scan sample_cwd sample_root (Some sample_tree)
         (mkPartial None None (Some [".gif"]) None))
  = inr (filter
           (fun rec =>
              isValidImageFile (last (segs (im_path rec)) "")
                (spread defaultOptions (mkPartial None None (Some [".gif"]) None)))
           (records_of
              (fst (scan sample_cwd sample_root (Some sample_tree)
                      (mkPartial None None (Some [".jpg"; ".gif"; ".png"]) None))))).
Proof.
  apply (X21_narrower_types_filter_the_scan sample_cwd sample_root sample_tree
           None None [".jpg"; ".gif"; ".png"] [".gif"] None _
           (snd (scan sample_cwd sample_root (Some sample_tree)
                   (mkPartial None None (Some [".jpg"; ".gif"; ".png"]) None)))).
  - reflexivity.
  - intros ty [<- | []]. right. left. reflexivity.
  - vm_compute. reflexivity.
Defined.
